(** * Event matcher of bovada-bet-linker (src/matcher.js)

    A shallow embedding of the matcher module: the name normaliser
    [normalizePlayerName], the lexical scorer [findMatchingEventSimple],
    the escalation step [findMatchingEventLLM] and the resolution policy
    [findMatchingEventWithDebug]; then the link builder of urlBuilder.js.

    Modelling choices:
    - A JavaScript string is the list of its UTF-16 code units, as [Z].
    - Every finite double is an integer multiple of 2^-1074, the least
      subnormal, and is kept as that integer: the double x is [x * 2^1074].
      [score += 0.4] is [add score (num_lit 4 1)]: the double nearest to
      0.4, added with rounding to the nearest double, ties to even.
      Comparisons of finite doubles are comparisons of these integers.
    - The built-ins that rest on Unicode data or on number formatting
      ([toLowerCase], [normalize('NFD')], [ToNumber] of a string, [ToString]
      of a number) are the methods of an [Engine]. The theorems hold for
      every engine that obeys [EngineLaws]: what ECMAScript and Unicode fix
      about these methods on the inputs the proofs need. Concrete runs use
      [latin1_engine], which obeys them.
    - The language-model call is an oracle: the policy receives what the
      request and [JSON.parse] come to ([LLMResponse]), the parsed reply as
      a JSON value, and records whether it asked, and with which events. *)

From Stdlib Require Import ZArith List Bool Lia String Ascii Sorted Permutation RelationClasses.
Import ListNotations.
Open Scope Z_scope.

(** ** JavaScript strings *)
Module JS.

Definition jstring := list Z.

(** String literals of the development, code unit by code unit. *)
Fixpoint of_ascii (s : string) : jstring :=
  match s with
  | EmptyString => []
  | String a t => Z.of_nat (nat_of_ascii a) :: of_ascii t
  end.

(** [a === b] *)
Fixpoint str_eqb (a b : jstring) : bool :=
  match a, b with
  | [], [] => true
  | x :: a', y :: b' => (x =? y) && str_eqb a' b'
  | _, _ => false
  end.

(** [s.startsWith(p)] *)
Fixpoint starts_with (s p : jstring) : bool :=
  match p, s with
  | [], _ => true
  | c :: p', d :: s' => (c =? d) && starts_with s' p'
  | _ :: _, [] => false
  end.

(** [s.includes(t)] *)
Fixpoint includes (s t : jstring) : bool :=
  starts_with s t ||
  match s with
  | [] => false
  | _ :: s' => includes s' t
  end.

(** [s.split(sep)] for a separator of one code unit: empty pieces are kept. *)
Fixpoint split_on (sep : Z) (s : jstring) : list jstring :=
  match s with
  | [] => [[]]
  | c :: t =>
      let r := split_on sep t in
      if c =? sep then [] :: r
      else match r with
           | w :: ws => (c :: w) :: ws
           | [] => [[c]]
           end
  end.

(** [array.join(sep)] *)
Fixpoint join (sep : jstring) (l : list jstring) : jstring :=
  match l with
  | [] => []
  | [x] => x
  | x :: t => x ++ sep ++ join sep t
  end.

(** JavaScript truthiness of an optional string field:
    [undefined] and [""] are falsy. *)
Definition truthy (o : option jstring) : bool :=
  match o with
  | Some (_ :: _) => true
  | _ => false
  end.

(** The class [\s] of JavaScript regular expressions; [String.prototype.trim]
    removes exactly these code units too. *)
Definition is_ws (c : Z) : bool :=
  existsb (Z.eqb c) [9; 10; 11; 12; 13; 32; 160; 5760; 8232; 8233; 8239;
                     8287; 12288; 65279]
  || ((8192 <=? c) && (c <=? 8202)).

(** [[a-z0-9]] *)
Definition is_alnum (c : Z) : bool :=
  ((97 <=? c) && (c <=? 122)) || ((48 <=? c) && (c <=? 57)).

(** [\d] *)
Definition is_digit (c : Z) : bool := (48 <=? c) && (c <=? 57).

(** [.replace(/[̀-ͯ]/g, '')] *)
Definition remove_marks (s : jstring) : jstring :=
  filter (fun c => negb ((768 <=? c) && (c <=? 879))) s.

(** [.replace(/[^a-z0-9\s]/g, '')] *)
Definition remove_special (s : jstring) : jstring :=
  filter (fun c => is_alnum c || is_ws c) s.

(** [.replace(/\s+/g, ' ')]; [in_run] tells whether the previous code unit
    belonged to a run of white space already replaced. *)
Fixpoint collapse_ws (in_run : bool) (s : jstring) : jstring :=
  match s with
  | [] => []
  | c :: t =>
      if is_ws c then
        if in_run then collapse_ws true t else 32 :: collapse_ws true t
      else c :: collapse_ws false t
  end.

Fixpoint drop_ws (s : jstring) : jstring :=
  match s with
  | c :: t => if is_ws c then drop_ws t else s
  | [] => []
  end.

(** [.trim()] *)
Definition trim (s : jstring) : jstring := rev (drop_ws (rev (drop_ws s))).

(** Decimal digits of a non-negative integer, most significant first, in
    front of [acc]; [fuel] bounds their number. *)
Fixpoint udigits (fuel : nat) (n : Z) (acc : jstring) : jstring :=
  match fuel with
  | O => acc
  | S f =>
      let acc := (48 + n mod 10) :: acc in
      if n <? 10 then acc else udigits f (n / 10) acc
  end.

(** The value of a string of decimal digits. *)
Definition decimal_value (s : jstring) : Z :=
  fold_left (fun acc c => acc * 10 + (c - 48)) s 0.

(** The array index a property key denotes: a key is an array index when
    it is the canonical decimal form of an integer below 2^32 - 1 ("0", or
    digits without a leading zero). *)
Definition array_index (s : jstring) : option Z :=
  match s with
  | [] => None
  | c :: t =>
      if forallb is_digit s && (negb (c =? 48) || match t with [] => true | _ => false end)
      then if decimal_value s <? 4294967295 then Some (decimal_value s) else None
      else None
  end.

End JS.

Import JS.

(** ** Numbers *)
Module Num.

(** The double x is kept as the integer [x * scale]. *)
Definition scale : Z := 2 ^ 1074.

(** The double nearest to [num / den] units of 2^-1074 ([0 <= num],
    [0 < den]), ties to even: below 2^-1022 every multiple of the unit is a
    double; above, a double has 53 significant bits, so the unit of the
    last place is 2^s with s the position of the leading bit less 52. *)
Definition round_q (num den : Z) : Z :=
  let s := Z.max 0 (Z.log2 (num / den) - 52) in
  let unit := 2 ^ s in
  let q := num / (den * unit) in
  let r := num - q * den * unit in
  match Z.compare (2 * r) (den * unit) with
  | Lt => q * unit
  | Gt => (q + 1) * unit
  | Eq => if Z.even q then q * unit else (q + 1) * unit
  end.

(** [a + b] on non-negative doubles. Scores never come near the largest
    double (a pick would need about 2^1020 players), so the overflow to
    [Infinity] is not modelled. *)
Definition add (a b : Z) : Z := round_q (a + b) 1.

(** The numeric literal of mantissa [m] and [e] decimals: [num_lit 7 1] is
    [0.7], [num_lit 10 1] is [1.0]. *)
Definition num_lit (m e : Z) : Z := round_q (m * scale) (10 ^ e).

(** A JavaScript number; [Finite 0] stands for both zeros, which no
    operation of the model tells apart. *)
Inductive number :=
| Finite (x : Z)
| PosInf
| NegInf
| NaN.

(** [x >= y] and [x < y] for a finite [y]: false when [x] is [NaN]. *)
Definition num_ge (x : number) (y : Z) : bool :=
  match x with
  | Finite z => y <=? z
  | PosInf => true
  | NegInf | NaN => false
  end.

Definition num_lt (x : number) (y : Z) : bool :=
  match x with
  | Finite z => z <? y
  | NegInf => true
  | PosInf | NaN => false
  end.

(** The array index [k] when the number is the integer [k] of
    [0 .. 2^32 - 2]. *)
Definition number_index (x : number) : option Z :=
  match x with
  | Finite z =>
      if (0 <=? z) && (z mod scale =? 0) && (z / scale <? 4294967295)
      then Some (z / scale) else None
  | _ => None
  end.

End Num.

Import Num.

Arguments round_q : simpl never.
Arguments add : simpl never.
Arguments num_lit : simpl never.

(** ** Unicode data on U+0000..U+00FF *)
Module Latin1.

Definition latin1 (c : Z) : Prop := 0 <= c <= 255.

(** The lowercase mapping: A-Z and the capitals U+00C0..U+00DE except the
    multiplication sign; every other code unit of the range maps to
    itself. *)
Definition lower_unit (c : Z) : Z :=
  if ((65 <=? c) && (c <=? 90))
     || ((192 <=? c) && (c <=? 222) && negb (c =? 215))
  then c + 32 else c.

(** The canonical decompositions of the small letters: each splits into
    its base letter and a combining mark of the block U+0300..U+036F. The
    other code units of the range (among them the letters æ, ð, ø, þ, ß
    and their capitals) have none. *)
Definition nfd_table : list (Z * (Z * Z)) :=
  [(224, (97, 768)); (225, (97, 769)); (226, (97, 770)); (227, (97, 771));
   (228, (97, 776)); (229, (97, 778)); (231, (99, 807));
   (232, (101, 768)); (233, (101, 769)); (234, (101, 770)); (235, (101, 776));
   (236, (105, 768)); (237, (105, 769)); (238, (105, 770)); (239, (105, 776));
   (241, (110, 771));
   (242, (111, 768)); (243, (111, 769)); (244, (111, 770)); (245, (111, 771));
   (246, (111, 776));
   (249, (117, 768)); (250, (117, 769)); (251, (117, 770)); (252, (117, 776));
   (253, (121, 769)); (255, (121, 776))].

Fixpoint lookup_decomp (c : Z) (t : list (Z * (Z * Z))) : option (Z * Z) :=
  match t with
  | [] => None
  | (k, d) :: t' => if k =? c then Some d else lookup_decomp c t'
  end.

(** Capitals decompose like their small letter, with a capital base. *)
Definition decomp (c : Z) : option (Z * Z) :=
  if (192 <=? c) && (c <=? 222) then
    match lookup_decomp (c + 32) nfd_table with
    | Some (b, m) => Some (b - 32, m)
    | None => None
    end
  else lookup_decomp c nfd_table.

(** The decomposition of one code unit; a Latin-1 string holds no
    combining mark, so its NFD form is the concatenation of these. *)
Definition nfd_unit (c : Z) : list Z :=
  match decomp c with
  | Some (b, m) => [b; m]
  | None => [c]
  end.


End Latin1.

(** ** The engine's built-ins *)

(** The methods of the JavaScript engine that the matcher reaches. *)
Class Engine := {
  toLowerCase : jstring -> jstring;          (* String.prototype.toLowerCase *)
  normalize_NFD : jstring -> jstring;        (* String.prototype.normalize('NFD') *)
  StringToNumber : jstring -> number;        (* ToNumber on a string *)
  NumberToString : number -> jstring         (* ToString on a number *)
}.

(** What ECMAScript and Unicode fix about them. *)
Class EngineLaws (E : Engine) : Prop := {
  (** On strings of U+0000..U+00FF, lower-casing and NFD are the Unicode
      mappings of that range. *)
  lower_latin1 : forall s, Forall Latin1.latin1 s ->
    toLowerCase s = map Latin1.lower_unit s;
  nfd_latin1 : forall s, Forall Latin1.latin1 s ->
    normalize_NFD s = flat_map Latin1.nfd_unit s;
  (** The canonical decimal form of an integer reads as that integer. *)
  index_string_number : forall s k, array_index s = Some k ->
    StringToNumber s = Finite (k * scale);
  (** A number is written as an array index exactly when it is that
      integer: [ToString] of an integer below 10^21 is its decimal form,
      and the form of any other number is not an array index. *)
  number_string_index : forall x, array_index (NumberToString x) = number_index x
}.

(** An engine for concrete runs: the Unicode mappings of U+0000..U+00FF
    (code units above are left as they are); [ToNumber] reads optional
    white space, an optional sign and decimal digits, and gives [NaN] for
    any other string (JavaScript also reads fractions, exponents,
    hexadecimal and [Infinity]); [ToString] writes integers below 10^21 as
    JavaScript does, and other finite numbers in their exact decimal
    expansion (JavaScript writes the shortest one that reads back). *)
Module Latin1Engine.

(** [sign * v] for the value [v] of a digit string. *)
Definition of_digits (sign : Z) (d : jstring) : number :=
  match d with
  | [] => NaN
  | _ :: _ =>
      if forallb is_digit d then
        let v := decimal_value d in
        if v <? 2 ^ 53 then Finite (sign * v * scale)
        else
          let r := round_q (v * scale) 1 in
          if 2 ^ 1024 * scale <=? r then (if sign <? 0 then NegInf else PosInf)
          else Finite (sign * r)
      else NaN
  end.

Definition string_to_number (s : jstring) : number :=
  match trim s with
  | [] => Finite 0
  | c :: d =>
      if c =? 43 then of_digits 1 d              (* "+" *)
      else if c =? 45 then of_digits (-1) d      (* "-" *)
      else of_digits 1 (c :: d)
  end.

(** The decimal digits of a non-negative integer. *)
Definition decimal (k : Z) : jstring := udigits (S (Z.to_nat (Z.log2 k))) k [].

(** The digits after the point of a fraction [f / scale]. *)
Fixpoint fraction_digits (fuel : nat) (f : Z) : jstring :=
  match fuel with
  | O => []
  | S n =>
      if f =? 0 then []
      else (48 + (f * 10) / scale) :: fraction_digits n ((f * 10) mod scale)
  end.

Definition unsigned_to_string (z : Z) : jstring :=
  if z mod scale =? 0 then decimal (z / scale)
  else decimal (z / scale) ++ [46] ++ fraction_digits 1074 (z mod scale).

Definition number_to_string (x : number) : jstring :=
  match x with
  | Finite z => if z <? 0 then 45 :: unsigned_to_string (- z) else unsigned_to_string z
  | PosInf => of_ascii "Infinity"
  | NegInf => of_ascii "-Infinity"
  | NaN => of_ascii "NaN"
  end.

End Latin1Engine.

Definition latin1_engine : Engine := {|
  toLowerCase := map Latin1.lower_unit;
  normalize_NFD := flat_map Latin1.nfd_unit;
  StringToNumber := Latin1Engine.string_to_number;
  NumberToString := Latin1Engine.number_to_string
|}.

(** ** [normalizePlayerName] (matcher.js, lines 252-260) *)
Section Normalize.
Context {E : Engine}.

Definition normalizePlayerName (name : jstring) : jstring :=
  trim (collapse_ws false
         (remove_special (remove_marks (normalize_NFD (toLowerCase name))))).

End Normalize.

(** ** Data model *)

(** The fields of a parsed pick that the matcher reads. *)
Module Pick.
Record t := mk {
  players : list jstring;
  sport : option jstring;
  league : option jstring
}.
End Pick.

(** An event of the feed (bovada.js builds them); [id] stands for the
    fields the matcher only passes through. *)
Module Event.
Record t := mk {
  id : Z;
  sport : option jstring;
  league : option jstring;
  participant1 : option jstring;
  participant2 : option jstring;
  description : option jstring;
  displayName : option jstring
}.
End Event.

(** [{ event, score }] *)
Record Candidate := mkCandidate {
  cand_event : Event.t;
  score : Z
}.

(** The object returned by [findMatchingEventSimple] when it is not [null]. *)
Record SimpleResult := mkSimpleResult {
  sr_event : option Event.t;
  sr_confidence : Z;
  sr_allCandidates : list Candidate
}.

(** The object returned by [findMatchingEventWithDebug]. *)
Record MatchResult := mkMatchResult {
  event : option Event.t;
  confidence : Z;
  candidates : list Candidate
}.

Definition opt_str (o : option jstring) : jstring :=
  match o with Some s => s | None => [] end.

(** [[...].filter(Boolean)] on optional strings. *)
Definition filter_truthy (l : list (option jstring)) : list jstring :=
  flat_map (fun o => if truthy o then [opt_str o] else []) l.

(** ** Lexical scorer: [findMatchingEventSimple] (matcher.js, lines 73-174) *)
Module Scorer.
Section Scorer.
Context {E : Engine}.

(** [for (const part of playerParts) { if (part.length > 2 &&
    participantParts.some(pp => pp === part || pp.includes(part))) {
    score += 0.4; playerMatched = true; break; } }] *)
Fixpoint scan_parts (participantParts playerParts : list jstring)
    (score : Z) (playerMatched : bool) : Z * bool :=
  match playerParts with
  | [] => (score, playerMatched)
  | part :: rest =>
      if (2 <? Z.of_nat (List.length part))
         && existsb (fun pp => str_eqb pp part || includes pp part)
                    participantParts
      then (add score (num_lit 4 1), true)
      else scan_parts participantParts rest score playerMatched
  end.

(** The loop [for (const participant of participants)] of one player. *)
Fixpoint scan_participants (normalizedPlayer : jstring)
    (participants : list jstring) (score : Z) (playerMatched : bool)
    : Z * bool :=
  match participants with
  | [] => (score, playerMatched)
  | participant :: rest =>
      if playerMatched then (score, playerMatched)
      else if str_eqb participant normalizedPlayer then (add score (num_lit 7 1), true)
      else if includes participant normalizedPlayer
              && (3 <=? Z.of_nat (List.length normalizedPlayer))
      then (add score (num_lit 6 1), true)
      else if includes normalizedPlayer participant
              && (3 <=? Z.of_nat (List.length participant))
      then (add score (num_lit 5 1), true)
      else
        let '(score', playerMatched') :=
          scan_parts (split_on 32 participant) (split_on 32 normalizedPlayer)
                     score playerMatched in
        scan_participants normalizedPlayer rest score' playerMatched'
  end.

Definition participants_of (event : Event.t) : list jstring :=
  map normalizePlayerName
    (filter_truthy [Event.participant1 event; Event.participant2 event;
                    Event.description event; Event.displayName event]).

(** The loop [for (const playerName of players)]. *)
Fixpoint scan_players (event : Event.t) (players : list jstring) (score : Z)
    : Z :=
  match players with
  | [] => score
  | playerName :: rest =>
      let normalizedPlayer := normalizePlayerName playerName in
      let participants := participants_of event in
      let '(score', _) :=
        scan_participants normalizedPlayer participants score false in
      scan_players event rest score'
  end.

(** The score of one event (the body of [for (const event of events)]). *)
Definition eventScore (pick : Pick.t) (event : Event.t) : Z :=
  let score := 0 in
  let score :=
    if truthy (Pick.sport pick) && truthy (Event.sport event) then
      if str_eqb (toLowerCase (opt_str (Event.sport event)))
                 (toLowerCase (opt_str (Pick.sport pick)))
      then add score (num_lit 2 1) else score
    else score in
  let score :=
    if truthy (Pick.league pick) && truthy (Event.league event) then
      if includes (toLowerCase (opt_str (Event.league event)))
                  (toLowerCase (opt_str (Pick.league pick)))
      then add score (num_lit 1 1) else score
    else score in
  scan_players event (Pick.players pick) score.

(** [for (const event of events)]: the best match so far, its score and
    [allCandidates] in push order. *)
Fixpoint scan_events (pick : Pick.t) (events : list Event.t)
    (bestMatch : option Event.t) (bestScore : Z) (allCandidates : list Candidate)
    : option Event.t * Z * list Candidate :=
  match events with
  | [] => (bestMatch, bestScore, allCandidates)
  | event :: rest =>
      let score := eventScore pick event in
      let allCandidates :=
        if 0 <? score then allCandidates ++ [mkCandidate event score]
        else allCandidates in
      if bestScore <? score
      then scan_events pick rest (Some event) score allCandidates
      else scan_events pick rest bestMatch bestScore allCandidates
  end.

End Scorer.

(** [allCandidates.sort((a, b) => b.score - a.score)]: [Array.prototype.sort]
    is stable, so its result is the stable sort by descending score, computed
    here by insertion. The difference of two finite doubles rounds to 0
    only when they are equal, and keeps its sign otherwise, so the
    comparator compares the scores. *)
Fixpoint insert_desc (c : Candidate) (l : list Candidate) : list Candidate :=
  match l with
  | [] => [c]
  | h :: t => if score h <=? score c then c :: h :: t else h :: insert_desc c t
  end.

Fixpoint sort_desc (l : list Candidate) : list Candidate :=
  match l with
  | [] => []
  | c :: t => insert_desc c (sort_desc t)
  end.

Section Simple.
Context {E : Engine}.

(** [None] is the [null] returned for a pick without players. *)
Definition findMatchingEventSimple (pick : Pick.t) (events : list Event.t)
    : option SimpleResult :=
  match Pick.players pick with
  | [] => None
  | _ :: _ =>
      let '(bestMatch, bestScore, allCandidates) :=
        scan_events pick events None 0 [] in
      let allCandidates := sort_desc allCandidates in
      match bestMatch with
      | Some e => Some (mkSimpleResult (Some e) (Z.min bestScore (num_lit 10 1)) allCandidates)
      | None => Some (mkSimpleResult None 0 allCandidates)
      end
  end.

End Simple.

End Scorer.

Import Scorer.

(** ** Escalation: [findMatchingEventLLM] (matcher.js, lines 183-245) *)
Module Escalation.

(** A value of [JSON.parse]; an object keeps its members in order, a
    repeated key included. *)
#[warnings="-register-all"]
Inductive JSONValue :=
| JNull
| JBool (b : bool)
| JNumber (x : number)
| JString (s : jstring)
| JArray (items : list JSONValue)
| JObject (members : list (jstring * JSONValue)).

(** What the call to [client.messages.create] and the parsing of its reply
    come to. *)
Inductive LLMResponse :=
| RThrows            (* the request rejects: network, timeout, API error *)
| RNoContent         (* [response.content[0]] is undefined: TypeError *)
| RNonText           (* [content.type !== 'text'] *)
| RUnparsable        (* [JSON.parse] throws *)
| RParsed (result : JSONValue).

(** [events.slice(0, 50)]: the events summarised in the prompt. *)
Definition eventSummaries (events : list Event.t) : list Event.t :=
  firstn 50 events.

(** [obj[k]] on a parsed object: the last member of that key; [None] is
    [undefined] (no key of a JSON reply is a property of
    [Object.prototype]'s that the code reads). *)
Definition get_member (k : jstring) (members : list (jstring * JSONValue))
    : option JSONValue :=
  fold_left (fun acc m => if str_eqb (fst m) k then Some (snd m) else acc)
    members None.

Section Conversions.
Context {E : Engine}.

(** [ToString], through [ToPrimitive] for arrays and objects; [None] is a
    [TypeError]. An array joins its items with commas, [null] items
    written as the empty string. An object converts with
    [Object.prototype.toString], unless it has a member [toString]: a
    parsed member is never callable, so its conversion throws. *)
Fixpoint to_str (v : JSONValue) : option jstring :=
  match v with
  | JNull => Some (of_ascii "null")
  | JBool b => Some (of_ascii (if b then "true" else "false"))
  | JNumber x => Some (NumberToString x)
  | JString s => Some s
  | JArray items =>
      let fix elements (l : list JSONValue) : option (list jstring) :=
        match l with
        | [] => Some []
        | x :: t =>
            match match x with JNull => Some [] | _ => to_str x end, elements t with
            | Some s, Some r => Some (s :: r)
            | _, _ => None
            end
        end in
      option_map (join [44]) (elements items)
  | JObject members =>
      if existsb (fun m => str_eqb (fst m) (of_ascii "toString")) members then None
      else Some (of_ascii "[object Object]")
  end.

(** [ToNumber], through [ToPrimitive] with hint number, which for a
    parsed array or object comes to the string of [to_str]. *)
Definition to_num (v : JSONValue) : option number :=
  match v with
  | JNull => Some (Finite 0)
  | JBool b => Some (Finite (if b then scale else 0))
  | JNumber x => Some x
  | JString s => Some (StringToNumber s)
  | JArray _ | JObject _ => option_map StringToNumber (to_str v)
  end.

(** [`${v}`] for a property read, [None] being [undefined]. *)
Definition template (o : option JSONValue) : option jstring :=
  match o with
  | None => Some (of_ascii "undefined")
  | Some v => to_str v
  end.

(** [events[key]]: an element for an array index below the length,
    [undefined] for every other index. The other keys of an array
    (["length"], the methods of [Array.prototype]) do not convert to
    numbers, so the guard before the access has excluded them. *)
Definition array_get (events : list Event.t) (key : jstring) : option Event.t :=
  match array_index key with
  | Some k => nth_error events (Z.to_nat k)
  | None => None
  end.

(** Lines 232-238, from the parsed reply on: [None] is an exception, and
    [Some m] the value returned, [m = None] for [null] or [undefined].
    [result.matchIndex] is converted once by the two comparisons: the
    second conversion gives what the first gave. *)
Definition llm_try (events : list Event.t) (result : JSONValue)
    : option (option Event.t) :=
  let get k := match result with
               | JObject members => get_member k members
               | _ => None
               end in
  match result with
  | JNull => None
  | _ =>
      match get (of_ascii "matchIndex") with
      | None | Some JNull => Some None
      | Some mi =>
          match to_num mi with
          | None => None
          | Some x =>
              if num_ge x 0 && num_lt x (Z.of_nat (List.length events) * scale) then
                match template (get (of_ascii "reasoning")),
                      template (get (of_ascii "confidence")), to_str mi with
                | Some _, Some _, Some key => Some (array_get events key)
                | _, _, _ => None
                end
              else Some None
          end
      end
  end.

(** Every exception inside the [try] is caught and gives [null]; an event
    is an object, so [if (llmMatch)] holds exactly for an event. *)
Definition findMatchingEventLLM (events : list Event.t) (resp : LLMResponse)
    : option Event.t :=
  match resp with
  | RParsed result =>
      match llm_try events result with
      | Some m => m
      | None => None
      end
  | _ => None
  end.

End Conversions.

End Escalation.

Import Escalation.

(** ** Resolution policy: [findMatchingEventWithDebug] (matcher.js, lines 22-65)

    The second component of the result is the list of events sent to the
    language model, [None] when it is not called. *)
Module Policy.
Section Policy.
Context {E : Engine}.

Definition null_result (candidates : list Candidate) : MatchResult :=
  mkMatchResult None 0 candidates.

Definition of_simple (r : SimpleResult) (candidates : list Candidate)
    : MatchResult :=
  mkMatchResult (sr_event r) (sr_confidence r) candidates.

(** Lines 55-64. *)
Definition fallback (simpleResult : option SimpleResult)
    (candidates : list Candidate) : MatchResult :=
  match simpleResult with
  | Some r =>
      if num_lit 3 1 <=? sr_confidence r then of_simple r candidates
      else null_result candidates
  | None => null_result candidates
  end.

(** Lines 43-64. *)
Definition escalate (events : list Event.t) (apiKey : option jstring)
    (resp : LLMResponse) (simpleResult : option SimpleResult)
    (candidates : list Candidate) : MatchResult * option (list Event.t) :=
  if truthy apiKey then
    match findMatchingEventLLM events resp with
    | Some llmMatch =>
        (mkMatchResult (Some llmMatch) (num_lit 9 1) candidates,
         Some (eventSummaries events))
    | None => (fallback simpleResult candidates, Some (eventSummaries events))
    end
  else (fallback simpleResult candidates, None).

Definition findMatchingEventWithDebug (pick : Pick.t) (events : list Event.t)
    (apiKey : option jstring) (resp : LLMResponse)
    : MatchResult * option (list Event.t) :=
  match events with
  | [] => (null_result [], None)
  | _ :: _ =>
      let simpleResult := findMatchingEventSimple pick events in
      let candidates :=
        match simpleResult with Some r => sr_allCandidates r | None => [] end in
      match simpleResult with
      | Some r =>
          if (num_lit 5 1 <=? sr_confidence r)
             && ((num_lit 7 1 <=? sr_confidence r) || negb (truthy apiKey))
          then (of_simple r candidates, None)
          else escalate events apiKey resp simpleResult candidates
      | None => escalate events apiKey resp simpleResult candidates
      end
  end.

End Policy.
End Policy.

Import Policy.

(** ** Lexical score as the specification words it

    A second definition of the score, following the specification: sport
    bonus, league bonus, and per player the bonus of the first rule that
    fires against the participant pool (first participant with a firing
    rule, first rule in precedence order for it). Bonuses count tenths. *)
Module ScoreSpec.
Section ScoreSpec.
Context {E : Engine}.

Definition sport_bonus (pick : Pick.t) (event : Event.t) : Z :=
  match Pick.sport pick, Event.sport event with
  | Some s, Some es =>
      if truthy (Some s) && truthy (Some es) && str_eqb (toLowerCase s) (toLowerCase es)
      then 2 else 0
  | _, _ => 0
  end.

Definition league_bonus (pick : Pick.t) (event : Event.t) : Z :=
  match Pick.league pick, Event.league event with
  | Some l, Some el =>
      if truthy (Some l) && truthy (Some el) && includes (toLowerCase el) (toLowerCase l)
      then 1 else 0
  | _, _ => 0
  end.

(** The non-empty values of the four name fields, each normalized. *)
Definition pool (event : Event.t) : list jstring :=
  map normalizePlayerName
    (flat_map (fun o => match o with Some ((_ :: _) as s) => [s] | _ => [] end)
       [Event.participant1 event; Event.participant2 event;
        Event.description event; Event.displayName event]).

Definition tokens (s : jstring) : list jstring := split_on 32 s.

(** The first rule that fires for a normalized player against one
    normalized participant. *)
Definition rule_bonus (np p : jstring) : option Z :=
  if str_eqb np p then Some 7
  else if (3 <=? Z.of_nat (List.length np)) && includes p np then Some 6
  else if (3 <=? Z.of_nat (List.length p)) && includes np p then Some 5
  else if existsb (fun t => (2 <? Z.of_nat (List.length t))
                            && existsb (fun pt => str_eqb pt t || includes pt t)
                                       (tokens p))
              (tokens np)
  then Some 4
  else None.

Fixpoint player_bonus (np : jstring) (pool : list jstring) : Z :=
  match pool with
  | [] => 0
  | p :: rest =>
      match rule_bonus np p with
      | Some b => b
      | None => player_bonus np rest
      end
  end.

(** The bonuses of an event in the order the specification lists them. *)
Definition bonuses (pick : Pick.t) (event : Event.t) : list Z :=
  sport_bonus pick event :: league_bonus pick event
  :: map (fun pl => player_bonus (normalizePlayerName pl) (pool event))
         (Pick.players pick).

(** Their sum, exactly. *)
Definition spec_score (pick : Pick.t) (event : Event.t) : Z :=
  fold_right Z.add 0 (bonuses pick event).

(** The bonuses added one after the other to 0 as doubles, a bonus of [b]
    tenths as the literal [b / 10]; a zero bonus adds nothing. *)
Definition add_bonuses (score : Z) (bs : list Z) : Z :=
  fold_left (fun acc b => if b =? 0 then acc else add acc (num_lit b 1)) bs score.

Definition double_score (pick : Pick.t) (event : Event.t) : Z :=
  add_bonuses 0 (bonuses pick event).

(** The greatest of these scores over the events, 0 when there is none. *)
Definition best_score (pick : Pick.t) (events : list Event.t) : Z :=
  fold_right (fun e m => Z.max (double_score pick e) m) 0 events.

End ScoreSpec.
End ScoreSpec.

(** ** Shapes used by the proofs *)
Module Shapes.

(** A code unit that can survive the normaliser. *)
Definition kept (c : Z) : Prop := is_alnum c = true \/ c = 32.

Fixpoint ws_pair_free (s : jstring) : Prop :=
  match s with
  | a :: ((b :: _) as t) => ~ (is_ws a = true /\ is_ws b = true) /\ ws_pair_free t
  | _ => True
  end.

Definition hd_not_ws (s : jstring) : Prop :=
  match s with
  | c :: _ => is_ws c = false
  | [] => True
  end.

Section Shapes.
Context {E : Engine}.

(** Candidates pushed by the scan, in event order. *)
Definition pos_cands (pick : Pick.t) (events : list Event.t) : list Candidate :=
  map (fun e => mkCandidate e (eventScore pick e))
      (filter (fun e => 0 <? eventScore pick e) events).

End Shapes.

(** [a] may come before [b] in a list sorted by descending score. *)
Definition desc (a b : Candidate) : Prop := score b <= score a.

Definition has_score (v : Z) (c : Candidate) : bool := score c =? v.

(** A normalized name: what [normalizePlayerName] can return. *)
Definition normal_form (y : jstring) : Prop :=
  Forall kept y /\ ws_pair_free y /\ hd_not_ws y /\ hd_not_ws (rev y).

End Shapes.

Import Shapes.

(** ** The resolution policy as the specification words it

    Steps 3-6 of the decision procedure, for the lexical result [r]: the
    escalation resolver, when available, makes the selection [selection]
    and is sent the events [sent]. The thresholds are the doubles the
    literals 0.7, 0.5, 0.3 and 0.9 denote. *)
Module PolicySpec.

Definition policy_spec (r : SimpleResult) (resolver_available : bool)
    (selection : option Event.t) (sent : list Event.t)
    : MatchResult * option (list Event.t) :=
  let conf := sr_confidence r in
  let lexical := mkMatchResult (sr_event r) conf (sr_allCandidates r) in
  let nomatch := mkMatchResult None 0 (sr_allCandidates r) in
  if (num_lit 7 1 <=? conf) || ((num_lit 5 1 <=? conf) && negb resolver_available)
  then (lexical, None)
  else if resolver_available then
    match selection with
    | Some ev => (mkMatchResult (Some ev) (num_lit 9 1) (sr_allCandidates r), Some sent)
    | None => (if num_lit 3 1 <=? conf then lexical else nomatch, Some sent)
    end
  else (if num_lit 3 1 <=? conf then lexical else nomatch, None).

End PolicySpec.

Import PolicySpec.

(** ** Sample inputs, after the mock events of bovada.js *)
Module Samples.



Definition ev_galan : Event.t :=
  Event.mk 1 (Some (of_ascii "tennis")) (Some (of_ascii "ATP Buenos Aires"))
    (Some (of_ascii "Daniel Elahi Galan")) (Some (of_ascii "Lautaro Midon"))
    (Some (of_ascii "Galan vs Midon")) (Some (of_ascii "Galan vs Midon")).

Definition ev_lakers : Event.t :=
  Event.mk 5 (Some (of_ascii "basketball")) (Some (of_ascii "NBA"))
    (Some (of_ascii "Los Angeles Lakers")) (Some (of_ascii "Boston Celtics"))
    (Some (of_ascii "Lakers vs Celtics")) (Some (of_ascii "Lakers vs Celtics")).

(** For the player "Daniel Galan" of a tennis pick: no sport, and the
    second rule (0.6) against "daniel galan jr". *)
Definition ev_galan_jr : Event.t :=
  Event.mk 7 None None (Some (of_ascii "Daniel Galan Jr")) None None None.

(** The sport (0.2), then the token rule (0.4) against "galan x". *)
Definition ev_galan_x : Event.t :=
  Event.mk 8 (Some (of_ascii "tennis")) None (Some (of_ascii "Galan X")) None None None.

Definition pick_galan : Pick.t :=
  Pick.mk [of_ascii "Galan"] (Some (of_ascii "tennis")) None.

Definition pick_daniel_galan : Pick.t :=
  Pick.mk [of_ascii "Daniel Galan"] (Some (of_ascii "tennis")) None.

Definition pick_djokovic : Pick.t := Pick.mk [of_ascii "Djokovic"] None None.

Definition pick_no_players : Pick.t := Pick.mk [] (Some (of_ascii "tennis")) None.

Definition api_key : option jstring := Some (of_ascii "sk-test").

(** 51 events: the language model is shown the first 50. *)
Definition events_51 : list Event.t := repeat ev_galan 50 ++ [ev_lakers].

(** The reply [{"matchIndex": n, "confidence": 0}]. *)
Definition index_reply (n : Z) : LLMResponse :=
  RParsed (JObject [(of_ascii "matchIndex", JNumber (Finite (n * scale)));
                    (of_ascii "confidence", JNumber (Finite 0))]).

(** The malformed reply [{"matchIndex": "0"}]: a string, not a number. *)
Definition string_index_reply : LLMResponse :=
  RParsed (JObject [(of_ascii "matchIndex", JString (of_ascii "0"))]).

End Samples.

Import Samples.

(** ** [findMatchingEvent] (matcher.js, lines 10-13)

    [result?.event || null]: the event of the debug result (an event is an
    object, so it is truthy), with the record of the language-model call. *)
Section Entry.
Context {E : Engine}.

Definition findMatchingEvent (pick : Pick.t) (events : list Event.t)
    (apiKey : option jstring) (resp : LLMResponse)
    : option Event.t * option (list Event.t) :=
  let '(result, sent) := findMatchingEventWithDebug pick events apiKey resp in
  (event result, sent).

End Entry.

(** ** URL builder (urlBuilder.js)

    The matched event is turned into a link by [buildBovadaUrl] (bot.js and
    cli.js call it on the event the matcher returns). A date is given by the
    values its local-time getters return ([new Date(startTime)] and the host
    time zone are not modelled; invalid dates are not modelled). *)
Module UrlBuilder.

Definition BOVADA_BASE_URL : jstring := of_ascii "https://www.bovada.lv".

(** [.replace(/[^a-z0-9\s-]/g, '')] *)
Definition remove_special_slug (s : jstring) : jstring :=
  filter (fun c => is_alnum c || is_ws c || (c =? 45)) s.

(** [.replace(/R+/g, rep)] for a class [R] of single code units. *)
Fixpoint replace_runs (in_class : Z -> bool) (rep : Z) (in_run : bool)
    (s : jstring) : jstring :=
  match s with
  | [] => []
  | c :: t =>
      if in_class c then
        if in_run then replace_runs in_class rep true t
        else rep :: replace_runs in_class rep true t
      else c :: replace_runs in_class rep false t
  end.

(** [.replace(/^-|-$/g, '')]: one leading and one trailing hyphen; for the
    string ["-"] the single match at the start removes it. *)
Definition strip_hyphens (s : jstring) : jstring :=
  let s1 := match s with
            | c :: t => if c =? 45 then t else s
            | [] => []
            end in
  match rev s1 with
  | c :: t => if c =? 45 then rev t else s1
  | [] => s1
  end.

(** The local-time getters of a valid [Date]. *)
Record LocalDate := mkDate {
  getFullYear : Z;
  getMonth : Z;
  getDate : Z;
  getHours : Z;
  getMinutes : Z
}.

(** [String(n)] for an integer [n]; 32 digits cover every date field. *)
Definition String_of_Z (n : Z) : jstring :=
  if n <? 0 then 45 :: udigits 32 (- n) [] else udigits 32 n [].

(** [s.padStart(2, '0')] *)
Definition padStart2 (s : jstring) : jstring :=
  repeat 48 (2 - List.length s) ++ s.

(** [formatTimestamp] (lines 110-118). *)
Definition formatTimestamp (date : LocalDate) : jstring :=
  String_of_Z (getFullYear date)
  ++ padStart2 (String_of_Z (getMonth date + 1))
  ++ padStart2 (String_of_Z (getDate date))
  ++ padStart2 (String_of_Z (getHours date))
  ++ padStart2 (String_of_Z (getMinutes date)).

(** An element of Bovada's [path] array. *)
Record PathEntry := mkPathEntry {
  path_link : option jstring;
  path_description : option jstring
}.

(** The fields of a raw Bovada event that the builder reads. *)
Record RawEvent := mkRawEvent {
  raw_link : option jstring;
  raw_participant1 : option jstring;
  raw_participant2 : option jstring;
  raw_startTime : option LocalDate
}.

(** The fields of an event that the builder reads. *)
Record UrlEvent := mkUrlEvent {
  link : option jstring;
  raw : option RawEvent;
  path : option (list PathEntry);
  u_sport : option jstring;
  u_league : option jstring;
  u_participant1 : option jstring;
  u_participant2 : option jstring;
  startTime : option LocalDate
}.

Definition or_default (o : option jstring) (d : string) : option jstring :=
  if truthy o then o else Some (of_ascii d).

(** The object returned by [parseBovadaUrl]. *)
Record ParsedUrl := mkParsedUrl {
  pu_sport : option jstring;
  pu_league : option jstring;
  pu_eventSlug : jstring;
  pu_timestamp : option jstring;
  pu_participants : list jstring
}.

(** [eventSlug.match(/(\d{12})$/)], as its group 1. *)
Definition timestamp_match (s : jstring) : option jstring :=
  let n := List.length s in
  if (12 <=? n)%nat && forallb is_digit (skipn (n - 12) s)
  then Some (skipn (n - 12) s) else None.

(** [parseBovadaUrl] (lines 125-159) from [urlObj.pathname] on: the
    parsing of the URL itself ([new URL]) is not modelled. *)
Definition parseBovadaPath (pathname : jstring) : option ParsedUrl :=
  let pathParts := filter (fun p => truthy (Some p)) (split_on 47 pathname) in
  match pathParts with
  | [] => None
  | p0 :: _ =>
      if str_eqb p0 (of_ascii "sports") then
        let eventSlug := last pathParts [] in
        let timestamp := timestamp_match eventSlug in
        let participantsPart :=
          match timestamp with
          | Some ts => firstn (List.length eventSlug - List.length ts - 1) eventSlug
          | None => eventSlug
          end in
        Some (mkParsedUrl (nth_error pathParts 1) (nth_error pathParts 2)
                eventSlug timestamp (split_on 45 participantsPart))
      else None
  end.

Section Slugs.
Context {E : Engine}.

(** [slugify] (lines 92-103); [None] is [undefined]. *)
Definition slugify (str : option jstring) : jstring :=
  if truthy str then
    strip_hyphens
      (replace_runs (Z.eqb 45) 45 false
        (replace_runs is_ws 45 false
          (remove_special_slug (remove_marks (normalize_NFD
            (toLowerCase (opt_str str)))))))
  else [].

(** [createEventSlug] (lines 71-85), on the fields it reads. *)
Definition createEventSlug (participant1 participant2 : option jstring)
    (startTime : option LocalDate) : jstring :=
  let participants :=
    join [45] (map (fun p => slugify (Some p))
                   (filter_truthy [participant1; participant2])) in
  let timestamp :=
    match startTime with
    | Some date => formatTimestamp date
    | None => []
    end in
  if truthy (Some timestamp) then participants ++ [45] ++ timestamp
  else participants.

(** [constructUrlFromPath] (lines 43-51). *)
Definition constructUrlFromPath (p : list PathEntry) (rawEvent : RawEvent)
    : jstring :=
  let pathParts :=
    map (fun e => if truthy (path_link e) then opt_str (path_link e)
                  else slugify (path_description e)) p in
  let eventSlug :=
    if truthy (raw_link rawEvent) then opt_str (raw_link rawEvent)
    else createEventSlug (raw_participant1 rawEvent) (raw_participant2 rawEvent)
           (raw_startTime rawEvent) in
  BOVADA_BASE_URL ++ of_ascii "/sports/" ++ join [47] pathParts ++ [47] ++ eventSlug.

(** The path that [constructUrl] appends to the base URL. *)
Definition constructPath (event : UrlEvent) : jstring :=
  let sport := slugify (or_default (u_sport event) "sports") in
  let league := slugify (or_default (u_league event) "events") in
  let eventSlug :=
    createEventSlug (u_participant1 event) (u_participant2 event) (startTime event) in
  of_ascii "/sports/" ++ sport ++ [47] ++ league ++ [47] ++ eventSlug.

(** [constructUrl] (lines 58-64). *)
Definition constructUrl (event : UrlEvent) : jstring :=
  BOVADA_BASE_URL ++ constructPath event.

(** [buildBovadaUrl] (lines 18-35); [_raw] and [_path] are objects, truthy
    when present. *)
Definition buildBovadaUrl (event : UrlEvent) : jstring :=
  if truthy (link event) then
    if starts_with (opt_str (link event)) (of_ascii "http") then opt_str (link event)
    else BOVADA_BASE_URL ++ opt_str (link event)
  else
    match raw event, path event with
    | Some r, Some p => constructUrlFromPath p r
    | _, _ => constructUrl event
    end.

End Slugs.

End UrlBuilder.

Import UrlBuilder.

(** ** Shapes used by the proofs about the URL builder *)
Module UrlShapes.

(** A code unit that can occur in a slug: [[a-z0-9-]]. *)
Definition slug_char (c : Z) : Prop := is_alnum c = true \/ c = 45.

(** No two adjacent code units of the class [cls]. *)
Fixpoint run_free (cls : Z -> bool) (s : jstring) : Prop :=
  match s with
  | a :: ((b :: _) as t) => ~ (cls a = true /\ cls b = true) /\ run_free cls t
  | _ => True
  end.

Definition hd_not (cls : Z -> bool) (s : jstring) : Prop :=
  match s with
  | c :: _ => cls c = false
  | [] => True
  end.

Definition four_digits_ok (y : Z) : bool :=
  let s := String_of_Z y in
  (List.length s =? 4)%nat && forallb is_digit s && (decimal_value s =? y).

Definition two_digits_ok (n : Z) : bool :=
  let s := padStart2 (String_of_Z n) in
  (List.length s =? 2)%nat && forallb is_digit s && (decimal_value s =? n).

Definition range (lo count : Z) : list Z :=
  map (fun k => lo + Z.of_nat k) (seq 0 (Z.to_nat count)).

Section UrlShapes.
Context {E : Engine}.

(** The three path segments [constructUrl] writes after [/sports/]. *)
Definition sport_slug (ev : UrlEvent) : jstring :=
  slugify (or_default (u_sport ev) "sports").

Definition league_slug (ev : UrlEvent) : jstring :=
  slugify (or_default (u_league ev) "events").

Definition participants_slug (ev : UrlEvent) : jstring :=
  join [45] (map (fun p => slugify (Some p))
                 (filter_truthy [u_participant1 ev; u_participant2 ev])).

Definition event_slug (ev : UrlEvent) : jstring :=
  createEventSlug (u_participant1 ev) (u_participant2 ev) (startTime ev).


End UrlShapes.

End UrlShapes.

Import UrlShapes.

(** ** Sample events for the URL builder *)
Module UrlSamples.

(** 8 February 2026, 11:00 local time. *)
Definition date_galan : LocalDate := mkDate 2026 1 8 11 0.

Definition url_galan : UrlEvent :=
  mkUrlEvent None None None (Some (of_ascii "tennis"))
    (Some (of_ascii "ATP Buenos Aires")) (Some (of_ascii "Daniel Elahi Galan"))
    (Some (of_ascii "Lautaro Midon")) (Some date_galan).

(** A sport made only of symbols slugifies to the empty string. *)
Definition url_symbol_sport : UrlEvent :=
  mkUrlEvent None None None (Some (of_ascii "!!!")) (Some (of_ascii "ATP"))
    (Some (of_ascii "Galan")) None None.

End UrlSamples.

Import UrlSamples.

(** * Properties *)
(** ** Strings and digits *)
Module StringFacts.

Lemma str_eqb_eq (a b : jstring) : str_eqb a b = true <-> a = b.
Proof.
  revert b. induction a as [|x a IH]; intros [|y b]; simpl;
    try (split; intro H; [discriminate H | discriminate H]); [tauto|].
  rewrite andb_true_iff, Z.eqb_eq, IH. split.
  - intros [-> ->]. reflexivity.
  - intro H. injection H. tauto.
Qed.

Lemma str_eqb_sym (a b : jstring) : str_eqb a b = str_eqb b a.
Proof.
  destruct (str_eqb a b) eqn:E; symmetry.
  - apply str_eqb_eq in E. subst. apply str_eqb_eq. reflexivity.
  - apply not_true_iff_false. intro F. apply str_eqb_eq in F. subst.
    rewrite (proj2 (str_eqb_eq a a) eq_refl) in E. discriminate.
Qed.

Lemma range_check (f : Z -> bool) (lo count n : Z) :
  forallb f (range lo count) = true -> lo <= n < lo + count -> f n = true.
Proof.
  intros H Hn. rewrite forallb_forall in H. apply H. unfold range.
  apply in_map_iff. exists (Z.to_nat (n - lo)). split; [lia|].
  apply in_seq. lia.
Qed.

Lemma digit_bounds (c : Z) : is_digit c = true -> 48 <= c <= 57.
Proof. unfold is_digit. rewrite andb_true_iff, !Z.leb_le. tauto. Qed.

Lemma digit_not_ws (c : Z) : is_digit c = true -> is_ws c = false.
Proof.
  intro H. apply digit_bounds in H. unfold is_ws. simpl.
  repeat match goal with
         | |- context [c =? ?k] => destruct (Z.eqb_spec c k); [lia|]
         end.
  destruct (Z.leb_spec 8192 c); [lia | reflexivity].
Qed.

Lemma forallb_digit_dot (a b : jstring) : forallb is_digit (a ++ 46 :: b) = false.
Proof.
  induction a as [|c a IH]; [reflexivity|]. simpl. rewrite IH. apply andb_false_r.
Qed.

Lemma array_index_dot (a b : jstring) : array_index (a ++ 46 :: b) = None.
Proof.
  unfold array_index. rewrite forallb_digit_dot.
  destruct (a ++ 46 :: b); reflexivity.
Qed.

Lemma decimal_value_snoc (d : jstring) (x : Z) :
  decimal_value (d ++ [x]) = decimal_value d * 10 + (x - 48).
Proof. unfold decimal_value. rewrite fold_left_app. reflexivity. Qed.

Lemma decimal_value_nonneg_acc (d : jstring) (a : Z) :
  0 <= a -> forallb is_digit d = true ->
  0 <= fold_left (fun acc c => acc * 10 + (c - 48)) d a.
Proof.
  revert a. induction d as [|c d IH]; intros a Ha H; simpl in *; [exact Ha|].
  apply andb_true_iff in H as [Hc H]. apply digit_bounds in Hc.
  apply IH; [lia | exact H].
Qed.

Lemma decimal_value_nonneg (d : jstring) :
  forallb is_digit d = true -> 0 <= decimal_value d.
Proof. apply decimal_value_nonneg_acc. lia. Qed.

Lemma udigits_S (f : nat) (n : Z) (acc : jstring) :
  udigits (S f) n acc
  = if n <? 10 then (48 + n mod 10) :: acc else udigits f (n / 10) ((48 + n mod 10) :: acc).
Proof. reflexivity. Qed.

(** The digits [udigits] writes: a decimal numeral without leading zeros. *)
Lemma udigits_spec (f : nat) (n : Z) (acc : jstring) :
  0 <= n < 10 ^ Z.of_nat (S f) ->
  exists d, udigits (S f) n acc = d ++ acc /\ d <> [] /\ forallb is_digit d = true
    /\ decimal_value d = n /\ (hd 0 d <> 48 \/ d = [48]).
Proof.
  revert n acc. induction f as [|f IH]; intros n acc Hn.
  - change (10 ^ Z.of_nat 1) with 10 in Hn. rewrite udigits_S.
    replace (n <? 10) with true by (symmetry; apply Z.ltb_lt; lia).
    exists [48 + n mod 10]. rewrite Z.mod_small by lia.
    split; [reflexivity|]. split; [discriminate|].
    split; [cbn [forallb]; rewrite andb_true_r; unfold is_digit;
            rewrite andb_true_iff, !Z.leb_le; lia|].
    split; [unfold decimal_value; cbn [fold_left]; lia|].
    destruct (Z.eq_dec n 0) as [->|N]; [right; reflexivity | left; cbn [hd]; lia].
  - rewrite udigits_S.
    assert (D : is_digit (48 + n mod 10) = true).
    { pose proof (Z.mod_pos_bound n 10 ltac:(lia)).
      unfold is_digit. rewrite andb_true_iff, !Z.leb_le. lia. }
    destruct (Z.ltb_spec n 10) as [Lt|Ge].
    + exists [48 + n mod 10]. rewrite Z.mod_small by lia.
      rewrite Z.mod_small in D by lia.
      split; [reflexivity|]. split; [discriminate|].
      split; [cbn [forallb]; rewrite D; reflexivity|].
      split; [unfold decimal_value; cbn [fold_left]; lia|].
      destruct (Z.eq_dec n 0) as [->|N]; [right; reflexivity | left; cbn [hd]; lia].
    + destruct (IH (n / 10) ((48 + n mod 10) :: acc)) as (d & E & Ne & Dd & V & H).
      { rewrite Nat2Z.inj_succ in Hn |- *. rewrite Z.pow_succ_r in Hn by lia.
        split; [apply Z.div_pos; lia|]. apply Z.div_lt_upper_bound; lia. }
      exists (d ++ [48 + n mod 10]). rewrite E, <- app_assoc. split; [reflexivity|].
      split; [destruct d; [contradiction | discriminate]|].
      split; [rewrite forallb_app, Dd; cbn [forallb andb]; rewrite D; reflexivity|].
      split.
      * rewrite decimal_value_snoc, V. pose proof (Z.div_mod n 10 ltac:(lia)). lia.
      * left. destruct H as [H | ->].
        -- destruct d as [|c d]; [contradiction|]. exact H.
        -- unfold decimal_value in V. simpl in V.
           assert (1 <= n / 10) by (apply Z.div_le_lower_bound; lia). lia.
Qed.

Lemma decimal_fuel (k : Z) :
  0 <= k -> 0 <= k < 10 ^ Z.of_nat (S (Z.to_nat (Z.log2 k))).
Proof.
  intro Hk. split; [exact Hk|].
  rewrite Nat2Z.inj_succ, Z2Nat.id by apply Z.log2_nonneg.
  destruct (Z.eq_dec k 0) as [->|N]; [reflexivity|].
  destruct (Z.log2_spec k ltac:(lia)) as [_ Hlt].
  eapply Z.lt_le_trans; [exact Hlt|].
  apply Z.pow_le_mono_l. lia.
Qed.

Lemma array_index_numeral (d : jstring) :
  d <> [] -> forallb is_digit d = true -> (hd 0 d <> 48 \/ d = [48]) ->
  array_index d = if decimal_value d <? 4294967295 then Some (decimal_value d) else None.
Proof.
  intros Ne D H. destruct d as [|c t]; [contradiction|].
  unfold array_index. rewrite D.
  replace (negb (c =? 48) || match t with [] => true | _ :: _ => false end) with true;
    [reflexivity|].
  destruct H as [H|H].
  - simpl in H. apply Z.eqb_neq in H. rewrite H. reflexivity.
  - injection H as -> ->. reflexivity.
Qed.

Lemma array_index_spec (s : jstring) (k : Z) :
  array_index s = Some k ->
  s <> [] /\ forallb is_digit s = true /\ k = decimal_value s /\ 0 <= k < 4294967295.
Proof.
  unfold array_index. destruct s as [|c t]; [discriminate|].
  destruct (forallb is_digit (c :: t)) eqn:D; [|discriminate].
  destruct (_ || _); [|discriminate]. cbn [andb].
  destruct (Z.ltb_spec (decimal_value (c :: t)) 4294967295) as [Lt|]; [|discriminate].
  intro H. injection H as <-.
  pose proof (decimal_value_nonneg _ D).
  split; [discriminate|]. split; [reflexivity|]. split; [reflexivity | lia].
Qed.

Lemma trim_digits (s : jstring) : forallb is_digit s = true -> trim s = s.
Proof.
  intro D. unfold trim.
  assert (Hd : forall u, forallb is_digit u = true -> drop_ws u = u).
  { intros [|c u] Hu; [reflexivity|]. simpl in Hu. apply andb_true_iff in Hu as [Hc _].
    simpl. rewrite (digit_not_ws c Hc). reflexivity. }
  rewrite (Hd s D), Hd; [apply rev_involutive|].
  rewrite forallb_forall in *. intros c Hc. apply D, in_rev, Hc.
Qed.

Lemma udigits_prefix (f : nat) (n : Z) (acc : jstring) :
  exists pre, udigits f n acc = pre ++ acc.
Proof.
  revert n acc. induction f as [|f IH]; intros n acc; [exists []; reflexivity|].
  rewrite udigits_S. destruct (n <? 10); [exists [48 + n mod 10]; reflexivity|].
  destruct (IH (n / 10) ((48 + n mod 10) :: acc)) as [pre E].
  exists (pre ++ [48 + n mod 10]). rewrite E, <- app_assoc. reflexivity.
Qed.

Lemma String_of_Z_nonempty (n : Z) : String_of_Z n <> [].
Proof.
  unfold String_of_Z. destruct (n <? 0); [discriminate|].
  rewrite udigits_S. destruct (n <? 10); [discriminate|].
  destruct (udigits_prefix 31 (n / 10) [48 + n mod 10]) as [pre' E'].
  rewrite E'. destruct pre'; discriminate.
Qed.

End StringFacts.

(** ** Numbers *)
Module NumFacts.

Lemma scale_pos : 0 < scale.
Proof. unfold scale. apply Z.pow_pos_nonneg; lia. Qed.

Lemma round_q_nonneg (num den : Z) : 0 <= num -> 0 < den -> 0 <= round_q num den.
Proof.
  intros Hn Hd. unfold round_q. cbv zeta.
  remember (Z.max 0 (Z.log2 (num / den) - 52)) as s eqn:Es.
  assert (Hu : 0 < 2 ^ s) by (apply Z.pow_pos_nonneg; lia).
  assert (Hq : 0 <= num / (den * 2 ^ s)) by (apply Z.div_pos; nia).
  destruct (Z.compare _ _); [destruct (Z.even _)|..]; nia.
Qed.

Lemma add_nonneg (a b : Z) : 0 <= a -> 0 <= b -> 0 <= add a b.
Proof. intros Ha Hb. unfold add. apply round_q_nonneg; lia. Qed.

Lemma num_lit_nonneg (m e : Z) : 0 <= m -> 0 <= e -> 0 <= num_lit m e.
Proof.
  intros Hm He. unfold num_lit. apply round_q_nonneg.
  - pose proof scale_pos. nia.
  - apply Z.pow_pos_nonneg; lia.
Qed.

(** The literals of the matcher, in their order. *)
Lemma lits_order :
  0 < num_lit 1 1 /\ num_lit 1 1 < num_lit 2 1 /\ num_lit 2 1 < num_lit 3 1
  /\ num_lit 3 1 < num_lit 4 1 /\ num_lit 4 1 < num_lit 5 1
  /\ num_lit 5 1 < num_lit 6 1 /\ num_lit 6 1 < num_lit 7 1
  /\ num_lit 7 1 < num_lit 9 1 /\ num_lit 9 1 < num_lit 10 1.
Proof. repeat match goal with |- _ /\ _ => split end; vm_compute; reflexivity. Qed.

End NumFacts.

(** ** Normalization *)
Module NormalizeFacts.

Import StringFacts.

Ltac unfold_classes :=
  unfold is_ws, is_alnum in *; simpl in *;
  repeat rewrite orb_true_iff in *; repeat rewrite andb_true_iff in *;
  repeat rewrite Z.eqb_eq in *; repeat rewrite Z.leb_le in *.

Lemma alnum_not_ws (c : Z) : is_alnum c = true -> is_ws c = false.
Proof.
  intro H. apply not_true_iff_false. intro W. unfold_classes. lia.
Qed.

Lemma ws_32 : is_ws 32 = true.
Proof. reflexivity. Qed.

Lemma filter_all {A} (f : A -> bool) (s : list A) :
  Forall (fun c => f c = true) s -> filter f s = s.
Proof.
  induction 1 as [|c t Hc _ IH]; simpl; [reflexivity|].
  rewrite Hc, IH. reflexivity.
Qed.

Lemma Forall_filter_prop {A} (f : A -> bool) (s : list A) :
  Forall (fun c => f c = true) (filter f s).
Proof.
  apply Forall_forall. intros c Hc. apply filter_In in Hc. tauto.
Qed.

Lemma lookup_decomp_absent (c : Z) (t : list (Z * (Z * Z))) :
  Forall (fun kd => fst kd <> c) t -> Latin1.lookup_decomp c t = None.
Proof.
  induction 1 as [|[k d] t' Hk _ IH]; simpl; [reflexivity|].
  simpl in Hk. destruct (Z.eqb_spec k c); [contradiction | exact IH].
Qed.

Lemma lookup_decomp_small (c : Z) :
  c < 224 -> Latin1.lookup_decomp c Latin1.nfd_table = None.
Proof.
  intro H. apply lookup_decomp_absent.
  unfold Latin1.nfd_table. repeat constructor; simpl; lia.
Qed.

Lemma kept_bounds (c : Z) : kept c -> 32 <= c <= 122.
Proof. intros [H|H]; [unfold_classes; lia | lia]. Qed.


Lemma lower_kept (c : Z) : kept c -> Latin1.lower_unit c = c.
Proof.
  intro H. pose proof (kept_bounds c H). unfold Latin1.lower_unit.
  destruct (c =? 32) eqn:E32.
  - apply Z.eqb_eq in E32; subst; reflexivity.
  - destruct H as [H|H]; [|subst; discriminate].
    unfold_classes.
    destruct ((65 <=? c) && (c <=? 90)) eqn:E1;
      [apply andb_true_iff in E1; rewrite !Z.leb_le in E1; lia|].
    destruct (192 <=? c) eqn:E2; [apply Z.leb_le in E2; lia|].
    reflexivity.
Qed.

Lemma nfd_kept (c : Z) : kept c -> Latin1.nfd_unit c = [c].
Proof.
  intro H. pose proof (kept_bounds c H). unfold Latin1.nfd_unit, Latin1.decomp.
  rewrite (lookup_decomp_small c) by lia.
  destruct (192 <=? c) eqn:E; [apply Z.leb_le in E; lia|]. reflexivity.
Qed.
















Section Normalize.
Context {E : Engine}.


Context {L : EngineLaws E}.








End Normalize.

End NormalizeFacts.

(** ** The test engine obeys the laws *)
Module EngineFacts.

Import StringFacts NormalizeFacts.

Lemma of_digits_index (d : jstring) (k : Z) :
  array_index d = Some k -> Latin1Engine.of_digits 1 d = Finite (k * scale).
Proof.
  intro H. destruct (array_index_spec d k H) as (Ne & D & -> & Hk).
  destruct d as [|c t]; [contradiction|]. unfold Latin1Engine.of_digits. rewrite D.
  replace (decimal_value (c :: t) <? 2 ^ 53) with true
    by (symmetry; apply Z.ltb_lt; assert (4294967295 < 2 ^ 53) by reflexivity; lia).
  f_equal. lia.
Qed.

Lemma string_to_number_index (s : jstring) (k : Z) :
  array_index s = Some k -> Latin1Engine.string_to_number s = Finite (k * scale).
Proof.
  intro H. destruct (array_index_spec s k H) as (Ne & D & _ & _).
  unfold Latin1Engine.string_to_number. rewrite (trim_digits s D).
  destruct s as [|c t]; [contradiction|].
  pose proof (digit_bounds c (proj1 (proj1 (andb_true_iff _ _) D))) as B.
  replace (c =? 43) with false by (symmetry; apply Z.eqb_neq; lia).
  replace (c =? 45) with false by (symmetry; apply Z.eqb_neq; lia).
  apply of_digits_index, H.
Qed.

Lemma decimal_spec (k : Z) :
  0 <= k ->
  Latin1Engine.decimal k <> [] /\ forallb is_digit (Latin1Engine.decimal k) = true
  /\ array_index (Latin1Engine.decimal k) = if k <? 4294967295 then Some k else None.
Proof.
  intro Hk. unfold Latin1Engine.decimal.
  destruct (udigits_spec (Z.to_nat (Z.log2 k)) k [] (decimal_fuel k Hk))
    as (d & E & Ne & D & V & H).
  rewrite E, app_nil_r. split; [exact Ne|]. split; [exact D|].
  rewrite array_index_numeral by assumption. rewrite V. reflexivity.
Qed.

Lemma number_to_string_index (x : number) :
  array_index (Latin1Engine.number_to_string x) = number_index x.
Proof.
  destruct x as [z| | |]; [|reflexivity..].
  unfold Latin1Engine.number_to_string, number_index.
  destruct (Z.ltb_spec z 0) as [Lt|Ge].
  - replace (0 <=? z) with false by (symmetry; apply Z.leb_gt, Lt). reflexivity.
  - replace (0 <=? z) with true by (symmetry; apply Z.leb_le, Ge). cbn [andb].
    pose proof NumFacts.scale_pos.
    assert (Hq : 0 <= z / scale) by (apply Z.div_pos; lia).
    destruct (decimal_spec (z / scale) Hq) as (Ne & D & A).
    unfold Latin1Engine.unsigned_to_string.
    destruct (z mod scale =? 0); [exact A|].
    change ([46] ++ Latin1Engine.fraction_digits 1074 (z mod scale))
      with (46 :: Latin1Engine.fraction_digits 1074 (z mod scale)).
    apply array_index_dot.
Qed.

Lemma latin1_engine_lawful : EngineLaws latin1_engine.
Proof.
  constructor.
  - intros s _. reflexivity.
  - intros s _. reflexivity.
  - exact string_to_number_index.
  - exact number_to_string_index.
Qed.

End EngineFacts.

(** ** Facts about the scorer *)
Module ScorerFacts.

Import StringFacts.

Lemma add_bonuses_cons (score b : Z) (bs : list Z) :
  ScoreSpec.add_bonuses score (b :: bs)
  = ScoreSpec.add_bonuses (if b =? 0 then score else add score (num_lit b 1)) bs.
Proof. reflexivity. Qed.

Lemma add_bonuses_app (score : Z) (bs cs : list Z) :
  ScoreSpec.add_bonuses score (bs ++ cs)
  = ScoreSpec.add_bonuses (ScoreSpec.add_bonuses score bs) cs.
Proof. unfold ScoreSpec.add_bonuses. apply fold_left_app. Qed.

Lemma add_bonuses_nonneg (score : Z) (bs : list Z) :
  0 <= score -> Forall (fun b => 0 <= b) bs -> 0 <= ScoreSpec.add_bonuses score bs.
Proof.
  intros Hs H. revert score Hs. induction H as [|b t Hb _ IH]; intros score Hs; [exact Hs|].
  rewrite add_bonuses_cons. apply IH.
  destruct (b =? 0); [exact Hs|].
  apply NumFacts.add_nonneg; [exact Hs | apply NumFacts.num_lit_nonneg; lia].
Qed.

Section Scorer.
Context {E : Engine}.

Lemma scan_parts_unmatched (pp ps : list jstring) (score : Z) :
  scan_parts pp ps score false =
  if existsb (fun part => (2 <? Z.of_nat (List.length part))
                          && existsb (fun x => str_eqb x part || includes x part) pp) ps
  then (add score (num_lit 4 1), true) else (score, false).
Proof.
  induction ps as [|part rest IH]; simpl; [reflexivity|].
  destruct (_ && _); [reflexivity | exact IH].
Qed.

Lemma scan_participants_matched (np : jstring) (ps : list jstring) (score : Z) :
  scan_participants np ps score true = (score, true).
Proof. destruct ps; reflexivity. Qed.

Lemma scan_participants_bonus (np : jstring) (ps : list jstring) (score : Z) :
  fst (scan_participants np ps score false)
  = let b := ScoreSpec.player_bonus np ps in
    if b =? 0 then score else add score (num_lit b 1).
Proof.
  revert score. induction ps as [|p rest IH]; intro score; simpl; [reflexivity|].
  unfold ScoreSpec.rule_bonus. rewrite (str_eqb_sym np p).
  destruct (str_eqb p np); [reflexivity|].
  rewrite (andb_comm (3 <=? _) (includes p np)).
  destruct (includes p np && _); [reflexivity|].
  rewrite (andb_comm (3 <=? _) (includes np p)).
  destruct (includes np p && _); [reflexivity|].
  rewrite scan_parts_unmatched. unfold ScoreSpec.tokens.
  destruct (existsb _ _).
  - rewrite scan_participants_matched. reflexivity.
  - apply IH.
Qed.

Lemma pool_participants (event : Event.t) :
  participants_of event = ScoreSpec.pool event.
Proof.
  unfold participants_of, ScoreSpec.pool, filter_truthy. f_equal.
  destruct event as [i s l p1 p2 d n]; simpl.
  destruct p1 as [[|]|], p2 as [[|]|], d as [[|]|], n as [[|]|]; reflexivity.
Qed.

Lemma scan_players_sum (event : Event.t) (players : list jstring) (score : Z) :
  scan_players event players score =
  ScoreSpec.add_bonuses score
    (map (fun pl => ScoreSpec.player_bonus (normalizePlayerName pl) (ScoreSpec.pool event))
         players).
Proof.
  revert score. induction players as [|pl rest IH]; intro score; [reflexivity|].
  cbn [scan_players map]. rewrite add_bonuses_cons.
  pose proof (scan_participants_bonus (normalizePlayerName pl)
                (participants_of event) score) as B.
  destruct (scan_participants _ _ score false) as [score' m].
  cbn [fst] in B. cbv beta iota. rewrite IH, B, pool_participants. reflexivity.
Qed.

Lemma sport_step (pick : Pick.t) (event : Event.t) (score : Z) :
  (if truthy (Pick.sport pick) && truthy (Event.sport event) then
     if str_eqb (toLowerCase (opt_str (Event.sport event)))
                (toLowerCase (opt_str (Pick.sport pick)))
     then add score (num_lit 2 1) else score
   else score)
  = let b := ScoreSpec.sport_bonus pick event in
    if b =? 0 then score else add score (num_lit b 1).
Proof.
  unfold ScoreSpec.sport_bonus.
  destruct (Pick.sport pick) as [[|c s]|], (Event.sport event) as [[|c' s']|];
    cbn [truthy opt_str andb]; try reflexivity.
  rewrite str_eqb_sym. destruct (str_eqb _ _); reflexivity.
Qed.

Lemma league_step (pick : Pick.t) (event : Event.t) (score : Z) :
  (if truthy (Pick.league pick) && truthy (Event.league event) then
     if includes (toLowerCase (opt_str (Event.league event)))
                 (toLowerCase (opt_str (Pick.league pick)))
     then add score (num_lit 1 1) else score
   else score)
  = let b := ScoreSpec.league_bonus pick event in
    if b =? 0 then score else add score (num_lit b 1).
Proof.
  unfold ScoreSpec.league_bonus.
  destruct (Pick.league pick) as [[|c s]|], (Event.league event) as [[|c' s']|];
    cbn [truthy opt_str andb]; try reflexivity.
  destruct (includes _ _); reflexivity.
Qed.

(** The code's score is the double-precision sum of the bonuses. *)
Lemma eventScore_spec (pick : Pick.t) (event : Event.t) :
  eventScore pick event = ScoreSpec.double_score pick event.
Proof.
  unfold eventScore, ScoreSpec.double_score, ScoreSpec.bonuses. cbv zeta.
  rewrite scan_players_sum, !add_bonuses_cons, sport_step, league_step.
  reflexivity.
Qed.

Lemma scan_events_cands (pick : Pick.t) (events : list Event.t)
    (bm : option Event.t) (bs : Z) (acc : list Candidate) :
  snd (scan_events pick events bm bs acc) = acc ++ pos_cands pick events.
Proof.
  revert bm bs acc. unfold pos_cands.
  induction events as [|e rest IH]; intros bm bs acc; simpl.
  - rewrite app_nil_r. reflexivity.
  - destruct (0 <? eventScore pick e);
      destruct (bs <? eventScore pick e); rewrite IH;
      rewrite <- ?app_assoc; reflexivity.
Qed.

(** The scan keeps the first event of greatest score. *)
Lemma scan_events_best (pick : Pick.t) (events : list Event.t)
    (bm : option Event.t) (bs : Z) (acc : list Candidate) :
  let '(bm', bs', _) := scan_events pick events bm bs acc in
  (bm' = bm /\ bs' = bs /\ Forall (fun x => eventScore pick x <= bs) events)
  \/ (exists e pre post,
        bm' = Some e /\ events = pre ++ e :: post /\ bs' = eventScore pick e
        /\ bs < bs'
        /\ Forall (fun x => eventScore pick x < bs') pre
        /\ Forall (fun x => eventScore pick x <= bs') post).
Proof.
  revert bm bs acc.
  induction events as [|x rest IH]; intros bm bs acc; simpl.
  - left. auto.
  - destruct (Z.ltb_spec bs (eventScore pick x)) as [Hlt|Hge].
    + specialize (IH (Some x) (eventScore pick x)
                    (if 0 <? eventScore pick x
                     then acc ++ [mkCandidate x (eventScore pick x)] else acc)).
      destruct (scan_events _ _ _ _ _) as [[bm' bs'] acc'].
      right. destruct IH as [(E1 & E2 & F)|(e & pre & post & E1 & E2 & E3 & HL & Fpre & Fpost)].
      * exists x, [], rest. subst. repeat split; auto.
      * exists e, (x :: pre), post. subst.
        repeat split; try lia; auto; try (constructor; [lia|exact Fpre]).
    + specialize (IH bm bs
                    (if 0 <? eventScore pick x
                     then acc ++ [mkCandidate x (eventScore pick x)] else acc)).
      destruct (scan_events _ _ _ _ _) as [[bm' bs'] acc'].
      destruct IH as [(E1 & E2 & F)|(e & pre & post & E1 & E2 & E3 & HL & Fpre & Fpost)].
      * left. repeat split; auto.
      * right. exists e, (x :: pre), post. subst.
        repeat split; try lia; auto; try (constructor; [lia|exact Fpre]).
Qed.

End Scorer.

End ScorerFacts.

(** ** Ranking: the stable sort and the best candidate *)
Module RankFacts.

Import ScorerFacts.

Lemma desc_trans : Transitive desc.
Proof. unfold desc. intros a b c H1 H2. lia. Qed.

Lemma insert_desc_perm (c : Candidate) (l : list Candidate) :
  Permutation (c :: l) (insert_desc c l).
Proof.
  induction l as [|h t IH]; simpl; [reflexivity|].
  destruct (score h <=? score c); [reflexivity|].
  rewrite perm_swap. constructor. exact IH.
Qed.

Lemma sort_desc_perm (l : list Candidate) : Permutation l (sort_desc l).
Proof.
  induction l as [|c t IH]; simpl; [reflexivity|].
  rewrite <- insert_desc_perm. constructor. exact IH.
Qed.

Lemma insert_desc_hdrel (h c : Candidate) (l : list Candidate) :
  HdRel desc h l -> desc h c -> HdRel desc h (insert_desc c l).
Proof.
  intros H Hc. destruct l as [|x t]; simpl; [constructor; exact Hc|].
  destruct (score x <=? score c); constructor; [exact Hc|].
  inversion H; assumption.
Qed.

Lemma insert_desc_sorted (c : Candidate) (l : list Candidate) :
  Sorted desc l -> Sorted desc (insert_desc c l).
Proof.
  induction l as [|h t IH]; intro S; simpl; [repeat constructor|].
  destruct (Z.leb_spec (score h) (score c)) as [Le|Gt].
  - constructor; [exact S | constructor; exact Le].
  - apply Sorted_inv in S as [St Ht]. constructor; [apply IH; exact St|].
    apply insert_desc_hdrel; [exact Ht|]. unfold desc. lia.
Qed.

Lemma sort_desc_sorted (l : list Candidate) : Sorted desc (sort_desc l).
Proof.
  induction l as [|c t IH]; simpl; [constructor|]. apply insert_desc_sorted, IH.
Qed.

Lemma filter_insert_same (v : Z) (c : Candidate) (l : list Candidate) :
  score c = v ->
  filter (has_score v) (insert_desc c l) = c :: filter (has_score v) l.
Proof.
  intro Hc. unfold has_score.
  induction l as [|h t IH]; simpl.
  - rewrite Hc, Z.eqb_refl. reflexivity.
  - destruct (Z.leb_spec (score h) (score c)); simpl.
    + rewrite Hc, Z.eqb_refl. reflexivity.
    + destruct (Z.eqb_spec (score h) v); [lia|]. exact IH.
Qed.

Lemma filter_insert_other (v : Z) (c : Candidate) (l : list Candidate) :
  score c <> v ->
  filter (has_score v) (insert_desc c l) = filter (has_score v) l.
Proof.
  intro Hc. unfold has_score.
  induction l as [|h t IH]; simpl.
  - destruct (Z.eqb_spec (score c) v); [contradiction | reflexivity].
  - destruct (score h <=? score c); simpl.
    + destruct (Z.eqb_spec (score c) v); [contradiction | reflexivity].
    + rewrite IH. reflexivity.
Qed.

(** Stability: the candidates of one score keep their relative order. *)
Lemma filter_sort_desc (v : Z) (l : list Candidate) :
  filter (has_score v) (sort_desc l) = filter (has_score v) l.
Proof.
  induction l as [|c t IH]; simpl; [reflexivity|].
  unfold has_score at 2. destruct (Z.eqb_spec (score c) v) as [E|N].
  - rewrite filter_insert_same by exact E. rewrite IH. reflexivity.
  - rewrite filter_insert_other by exact N. exact IH.
Qed.

Section Rank.
Context {E : Engine}.

Lemma pos_cands_app (pick : Pick.t) (l1 l2 : list Event.t) :
  pos_cands pick (l1 ++ l2) = pos_cands pick l1 ++ pos_cands pick l2.
Proof. unfold pos_cands. rewrite filter_app, map_app. reflexivity. Qed.

Lemma filter_pos_cands_below (pick : Pick.t) (v : Z) (l : list Event.t) :
  Forall (fun x => eventScore pick x < v) l ->
  filter (has_score v) (pos_cands pick l) = [].
Proof.
  unfold pos_cands, has_score.
  induction 1 as [|x t Hx _ IH]; simpl; [reflexivity|].
  destruct (0 <? eventScore pick x); simpl; [|exact IH].
  destruct (Z.eqb_spec (eventScore pick x) v); [lia | exact IH].
Qed.

Lemma In_pos_cands (pick : Pick.t) (c : Candidate) (l : list Event.t) :
  In c (pos_cands pick l) ->
  exists x, In x l /\ c = mkCandidate x (eventScore pick x).
Proof.
  unfold pos_cands. intro H. apply in_map_iff in H as (x & <- & Hx).
  apply filter_In in Hx. exists x. tauto.
Qed.

(** The two outcomes of [findMatchingEventSimple] for a pick with players. *)
Lemma simple_cases (pick : Pick.t) (events : list Event.t) :
  Pick.players pick <> [] ->
  let cands := sort_desc (pos_cands pick events) in
  (findMatchingEventSimple pick events = Some (mkSimpleResult None 0 cands)
   /\ Forall (fun x => eventScore pick x <= 0) events)
  \/ (exists e pre post,
        findMatchingEventSimple pick events
          = Some (mkSimpleResult (Some e) (Z.min (eventScore pick e) (num_lit 10 1)) cands)
        /\ events = pre ++ e :: post /\ 0 < eventScore pick e
        /\ Forall (fun x => eventScore pick x < eventScore pick e) pre
        /\ Forall (fun x => eventScore pick x <= eventScore pick e) post).
Proof.
  intros Hp cands. unfold findMatchingEventSimple.
  destruct (Pick.players pick) as [|p ps]; [contradiction|].
  pose proof (scan_events_best pick events None 0 []) as B.
  pose proof (scan_events_cands pick events None 0 []) as C.
  destruct (scan_events pick events None 0 []) as [[bm bs] acc].
  simpl in C. subst acc. fold cands.
  destruct B as [(-> & -> & F)|(e & pre & post & -> & Ee & -> & Hlt & Fpre & Fpost)].
  - left. split; [reflexivity | exact F].
  - right. exists e, pre, post. repeat split; auto.
Qed.

(** The head of the sorted candidates is the first event of greatest score. *)
Lemma sorted_head (pick : Pick.t) (e : Event.t) (pre post : list Event.t) :
  0 < eventScore pick e ->
  Forall (fun x => eventScore pick x < eventScore pick e) pre ->
  Forall (fun x => eventScore pick x <= eventScore pick e) post ->
  exists rest, sort_desc (pos_cands pick (pre ++ e :: post))
               = mkCandidate e (eventScore pick e) :: rest.
Proof.
  intros Hpos Fpre Fpost.
  set (v := eventScore pick e). set (l := pos_cands pick (pre ++ e :: post)).
  assert (Hin : In (mkCandidate e v) l).
  { unfold l, pos_cands. apply in_map_iff. exists e. split; [reflexivity|].
    apply filter_In. split; [apply in_or_app; right; left; reflexivity|].
    apply Z.ltb_lt. exact Hpos. }
  assert (Hle : forall c, In c l -> score c <= v).
  { intros c Hc. apply In_pos_cands in Hc as (x & Hx & ->). simpl.
    apply in_app_or in Hx as [Hx|[<-|Hx]].
    - rewrite Forall_forall in Fpre. specialize (Fpre x Hx). unfold v. lia.
    - unfold v. lia.
    - rewrite Forall_forall in Fpost. apply Fpost, Hx. }
  pose proof (sort_desc_perm l) as P.
  pose proof (Sorted_StronglySorted desc_trans (sort_desc_sorted l)) as SS.
  destruct (sort_desc l) as [|h rest] eqn:Es.
  { apply Permutation_sym, Permutation_nil in P. rewrite P in Hin. destruct Hin. }
  exists rest.
  assert (Hh : score h = v).
  { apply Permutation_sym in P.
    assert (Hhl : In h l) by (eapply Permutation_in; [exact P | left; reflexivity]).
    specialize (Hle h Hhl).
    assert (Hel : In (mkCandidate e v) (h :: rest))
      by (eapply Permutation_in; [apply Permutation_sym; exact P | exact Hin]).
    apply StronglySorted_inv in SS as [_ Fh]. rewrite Forall_forall in Fh.
    destruct Hel as [Heq|Hel]; [rewrite Heq; reflexivity|].
    specialize (Fh _ Hel). unfold desc in Fh. simpl in Fh. lia. }
  pose proof (filter_sort_desc v l) as F. rewrite Es in F.
  unfold l in F. rewrite pos_cands_app, filter_app in F.
  rewrite (filter_pos_cands_below pick v pre Fpre) in F. simpl in F.
  unfold has_score at 1 in F. simpl in F. rewrite Hh, Z.eqb_refl in F.
  assert (Pe : (0 <? v) = true) by (apply Z.ltb_lt; exact Hpos).
  unfold pos_cands in F. simpl in F. fold v in F. rewrite Pe in F. simpl in F.
  unfold has_score in F. simpl in F. rewrite Z.eqb_refl in F.
  injection F as -> _. reflexivity.
Qed.

End Rank.

End RankFacts.

(** ** Facts about the scorer's result *)
Module SimpleFacts.

Import ScorerFacts RankFacts.

Section Simple.
Context {E : Engine}.

Lemma simple_no_players (pick : Pick.t) (events : list Event.t) :
  Pick.players pick = [] -> findMatchingEventSimple pick events = None.
Proof. intro H. unfold findMatchingEventSimple. rewrite H. reflexivity. Qed.

Lemma simple_is_some (pick : Pick.t) (events : list Event.t) :
  Pick.players pick <> [] -> exists r, findMatchingEventSimple pick events = Some r.
Proof.
  intro Hp. destruct (simple_cases pick events Hp)
    as [[E' _]|(e & pre & post & E' & _)]; eexists; exact E'.
Qed.

(** A lexical result has an event exactly when its confidence is positive. *)
Lemma simple_event_conf (pick : Pick.t) (events : list Event.t) (r : SimpleResult) :
  findMatchingEventSimple pick events = Some r ->
  (sr_event r = None <-> sr_confidence r = 0) /\ 0 <= sr_confidence r.
Proof.
  intro Er. pose proof NumFacts.lits_order.
  destruct (Pick.players pick) as [|p ps] eqn:Hp.
  { rewrite simple_no_players in Er by exact Hp. discriminate. }
  assert (Hp' : Pick.players pick <> []) by (rewrite Hp; discriminate).
  destruct (simple_cases pick events Hp')
    as [[E' _]|(e & pre & post & E' & _ & Hpos & _)];
    rewrite Er in E'; injection E' as ->; simpl.
  - split; [tauto | lia].
  - split; [split; [discriminate | lia] | lia].
Qed.

Lemma eventScore_nonneg (pick : Pick.t) (e : Event.t) : 0 <= eventScore pick e.
Proof.
  rewrite eventScore_spec. unfold ScoreSpec.double_score.
  apply add_bonuses_nonneg; [lia|]. unfold ScoreSpec.bonuses.
  assert (P : forall np pool, 0 <= ScoreSpec.player_bonus np pool).
  { intros np pool. induction pool as [|p rest IH]; simpl; [lia|].
    unfold ScoreSpec.rule_bonus.
    destruct (str_eqb _ _); [lia|]. destruct (_ && includes p np); [lia|].
    destruct (_ && includes np p); [lia|]. destruct (existsb _ _); [lia | exact IH]. }
  constructor; [|constructor].
  - unfold ScoreSpec.sport_bonus. destruct (Pick.sport pick), (Event.sport e);
      try lia; destruct (_ && _); lia.
  - unfold ScoreSpec.league_bonus. destruct (Pick.league pick), (Event.league e);
      try lia; destruct (_ && _); lia.
  - apply Forall_forall. intros b Hb. apply in_map_iff in Hb as (pl & <- & _). apply P.
Qed.

Lemma best_nonneg (pick : Pick.t) (l : list Event.t) :
  0 <= ScoreSpec.best_score pick l.
Proof. induction l as [|x t IH]; simpl; lia. Qed.

Lemma best_ge (pick : Pick.t) (x : Event.t) (l : list Event.t) :
  In x l -> ScoreSpec.double_score pick x <= ScoreSpec.best_score pick l.
Proof.
  induction l as [|y t IH]; simpl; [tauto|].
  intros [<-|H]; [lia | specialize (IH H); lia].
Qed.

Lemma best_le (pick : Pick.t) (m : Z) (l : list Event.t) :
  0 <= m -> Forall (fun x => eventScore pick x <= m) l ->
  ScoreSpec.best_score pick l <= m.
Proof.
  intros Hm. induction 1 as [|x t Hx _ IH]; simpl; [lia|].
  rewrite <- eventScore_spec. lia.
Qed.

(** The three ways [findMatchingEventWithDebug] can go. *)
Lemma policy_outcomes (pick : Pick.t) (events : list Event.t)
    (apiKey : option jstring) (resp : LLMResponse) :
  let sr := findMatchingEventSimple pick events in
  let cands := match sr with Some r => sr_allCandidates r | None => [] end in
  let out := findMatchingEventWithDebug pick events apiKey resp in
  (events = [] /\ out = (null_result [], None))
  \/ (exists r, sr = Some r /\ num_lit 5 1 <= sr_confidence r
                /\ out = (of_simple r cands, None))
  \/ (events <> [] /\ out = escalate events apiKey resp sr cands).
Proof.
  intros sr cands out. unfold out, findMatchingEventWithDebug.
  destruct events as [|e0 es]; [left; split; reflexivity|]. right.
  fold sr cands. destruct sr as [r|] eqn:Er.
  - destruct ((num_lit 5 1 <=? sr_confidence r) && _) eqn:A.
    + left. exists r. apply andb_true_iff in A as [A _].
      apply Z.leb_le in A. repeat split; auto.
    + right. split; [discriminate | reflexivity].
  - right. split; [discriminate | reflexivity].
Qed.

(** The head of the candidates of a lexical result is its event. *)
Lemma simple_head (pick : Pick.t) (events : list Event.t) (r : SimpleResult)
    (e : Event.t) :
  findMatchingEventSimple pick events = Some r -> sr_event r = Some e ->
  exists rest, sr_allCandidates r = mkCandidate e (eventScore pick e) :: rest
    /\ sr_confidence r = Z.min (eventScore pick e) (num_lit 10 1).
Proof.
  intros Er Ee.
  destruct (Pick.players pick) as [|p ps] eqn:Hp.
  { rewrite simple_no_players in Er by exact Hp. discriminate. }
  assert (Hp' : Pick.players pick <> []) by (rewrite Hp; discriminate).
  destruct (simple_cases pick events Hp')
    as [[E' _]|(e' & pre & post & E' & Hev & Hpos & Fpre & Fpost)];
    rewrite Er in E'; injection E' as ->; simpl in Ee; [discriminate|].
  injection Ee as ->. rewrite Hev.
  destruct (sorted_head pick e pre post Hpos Fpre Fpost) as [rest Hr].
  exists rest. simpl. split; [exact Hr | reflexivity].
Qed.

(** The lexical confidence is min(best score, 1.0). *)
Lemma simple_confidence_best (pick : Pick.t) (events : list Event.t) (r : SimpleResult) :
  findMatchingEventSimple pick events = Some r ->
  sr_confidence r = Z.min (ScoreSpec.best_score pick events) (num_lit 10 1)
  /\ sr_allCandidates r = sort_desc (pos_cands pick events).
Proof.
  intro Er. pose proof NumFacts.lits_order.
  destruct (Pick.players pick) as [|p ps] eqn:Hp.
  { rewrite simple_no_players in Er by exact Hp. discriminate. }
  assert (Hp' : Pick.players pick <> []) by (rewrite Hp; discriminate).
  destruct (simple_cases pick events Hp')
    as [[E' F]|(e & pre & post & E' & Ee & Hpos & Fpre & Fpost)];
    rewrite Er in E'; injection E' as ->; cbn [sr_confidence sr_allCandidates];
    split; try reflexivity.
  - pose proof (best_le pick 0 events (Z.le_refl 0) F).
    pose proof (best_nonneg pick events). lia.
  - assert (Hin : In e events) by (rewrite Ee; apply in_or_app; right; left; reflexivity).
    pose proof (best_ge pick e events Hin) as G.
    assert (L : ScoreSpec.best_score pick events <= eventScore pick e).
    { apply best_le; [lia|]. rewrite Ee. apply Forall_app. split.
      - rewrite Forall_forall in *. intros x Hx. specialize (Fpre x Hx). lia.
      - constructor; [lia | exact Fpost]. }
    rewrite <- eventScore_spec in G.
    replace (ScoreSpec.best_score pick events) with (eventScore pick e) by lia.
    reflexivity.
Qed.

(** The lexical fallback (lines 55-64) keeps the lexical event at the head
    of the candidates, with confidence at least 0.3. *)
Lemma fallback_event (pick : Pick.t) (events : list Event.t) (e : Event.t) :
  let sr := findMatchingEventSimple pick events in
  let cands := match sr with Some r => sr_allCandidates r | None => [] end in
  event (fallback sr cands) = Some e ->
  num_lit 3 1 <= confidence (fallback sr cands)
  /\ (exists r, sr = Some r /\ sr_event r = Some e)
  /\ exists rest, candidates (fallback sr cands)
                  = mkCandidate e (eventScore pick e) :: rest
     /\ confidence (fallback sr cands) = Z.min (eventScore pick e) (num_lit 10 1).
Proof.
  intros sr cands. unfold fallback, cands.
  destruct sr as [r|] eqn:Er; [|discriminate].
  destruct (Z.leb_spec (num_lit 3 1) (sr_confidence r)); [|discriminate].
  simpl. intro Ee. split; [assumption|]. split; [exists r; split; [reflexivity | exact Ee]|].
  exact (simple_head pick events r e Er Ee).
Qed.

Lemma fallback_null_iff (pick : Pick.t) (events : list Event.t) :
  let sr := findMatchingEventSimple pick events in
  let cands := match sr with Some r => sr_allCandidates r | None => [] end in
  (event (fallback sr cands) = None <-> confidence (fallback sr cands) = 0)
  /\ (event (fallback sr cands) <> None -> num_lit 3 1 <= confidence (fallback sr cands)).
Proof.
  intros sr cands. unfold fallback, cands.
  destruct sr as [r|] eqn:Er; [|simpl; split; [tauto | intro H; contradiction]].
  destruct (Z.leb_spec (num_lit 3 1) (sr_confidence r)) as [Le|Gt];
    [|simpl; split; [tauto | intro H; contradiction]].
  simpl. destruct (simple_event_conf pick events r Er) as [I _].
  split; [tauto | intros _; exact Le].
Qed.

(** [findMatchingEventWithDebug] reads the reply only through the selection
    it yields. *)
Lemma debug_reply_ext (pick : Pick.t) (events : list Event.t) (apiKey : option jstring)
    (resp resp' : LLMResponse) :
  findMatchingEventLLM events resp = findMatchingEventLLM events resp' ->
  findMatchingEventWithDebug pick events apiKey resp
  = findMatchingEventWithDebug pick events apiKey resp'.
Proof.
  intro H. unfold findMatchingEventWithDebug, escalate. rewrite H. reflexivity.
Qed.

End Simple.

End SimpleFacts.

(** ** Facts about the escalation step *)
Module EscalationFacts.

Import StringFacts.

Lemma get_member_snoc (k k' : jstring) (v : JSONValue) (ms : list (jstring * JSONValue)) :
  get_member k (ms ++ [(k', v)]) = if str_eqb k' k then Some v else get_member k ms.
Proof. unfold get_member. rewrite fold_left_app. reflexivity. Qed.

Section Escalation.
Context {E : Engine} {L : EngineLaws E}.

(** A numeric [matchIndex] selects the event at that index when it is an
    integer index of the list, and nothing otherwise. *)
Lemma llm_number_index (events : list Event.t) (x : number) :
  findMatchingEventLLM events (RParsed (JObject [(of_ascii "matchIndex", JNumber x)]))
  = match number_index x with
    | Some k => nth_error events (Z.to_nat k)
    | None => None
    end.
Proof.
  unfold findMatchingEventLLM, llm_try, get_member. cbn [fold_left fst snd].
  change (str_eqb (of_ascii "matchIndex") (of_ascii "matchIndex")) with true.
  change (str_eqb (of_ascii "matchIndex") (of_ascii "reasoning")) with false.
  change (str_eqb (of_ascii "matchIndex") (of_ascii "confidence")) with false.
  cbn [to_num to_str template].
  unfold array_get. rewrite number_string_index.
  pose proof NumFacts.scale_pos.
  destruct x as [z| | |]; [|reflexivity..].
  unfold num_ge, num_lt, number_index.
  destruct (Z.leb_spec 0 z) as [Hz|Hz]; [|reflexivity].
  destruct (Z.ltb_spec z (Z.of_nat (List.length events) * scale)) as [Hl|Hl];
    [reflexivity|].
  cbn [andb].
  destruct ((z mod scale =? 0) && (z / scale <? 4294967295)); [|reflexivity].
  symmetry. apply nth_error_None.
  assert (Z.of_nat (List.length events) <= z / scale)
    by (apply Z.div_le_lower_bound; lia).
  lia.
Qed.

(** A string [matchIndex] in the canonical form of an index selects the
    event at that index. *)
Lemma llm_string_index (events : list Event.t) (s : jstring) (k : Z) :
  array_index s = Some k ->
  findMatchingEventLLM events (RParsed (JObject [(of_ascii "matchIndex", JString s)]))
  = nth_error events (Z.to_nat k).
Proof.
  intro H. destruct (array_index_spec s k H) as (_ & _ & _ & Hk).
  unfold findMatchingEventLLM, llm_try, get_member. cbn [fold_left fst snd].
  change (str_eqb (of_ascii "matchIndex") (of_ascii "matchIndex")) with true.
  change (str_eqb (of_ascii "matchIndex") (of_ascii "reasoning")) with false.
  change (str_eqb (of_ascii "matchIndex") (of_ascii "confidence")) with false.
  cbn [to_num to_str template].
  rewrite (index_string_number s k H).
  unfold num_ge, num_lt, array_get. rewrite H.
  pose proof NumFacts.scale_pos.
  replace (0 <=? k * scale) with true by (symmetry; apply Z.leb_le; nia).
  destruct (Z.ltb_spec (k * scale) (Z.of_nat (List.length events) * scale)) as [Hl|Hl];
    [reflexivity|].
  symmetry. apply nth_error_None.
  assert (Z.of_nat (List.length events) <= k) by nia. lia.
Qed.

End Escalation.

Section Confidence.
Context {E : Engine}.

(** The reported confidence only matters through whether writing it to
    the log throws. *)
Lemma llm_confidence_irrelevant (events : list Event.t)
    (ms : list (jstring * JSONValue)) (c c' : JSONValue) :
  (template (Some c) = None <-> template (Some c') = None) ->
  findMatchingEventLLM events (RParsed (JObject (ms ++ [(of_ascii "confidence", c)])))
  = findMatchingEventLLM events (RParsed (JObject (ms ++ [(of_ascii "confidence", c')]))).
Proof.
  intro H. unfold findMatchingEventLLM, llm_try. cbv beta iota zeta.
  rewrite !get_member_snoc.
  change (str_eqb (of_ascii "confidence") (of_ascii "matchIndex")) with false.
  change (str_eqb (of_ascii "confidence") (of_ascii "reasoning")) with false.
  change (str_eqb (of_ascii "confidence") (of_ascii "confidence")) with true.
  cbv iota.
  destruct (template (Some c)) eqn:T1, (template (Some c')) eqn:T2;
    try reflexivity; exfalso; destruct H as [H1 H2];
    first [discriminate (H1 eq_refl) | discriminate (H2 eq_refl)].
Qed.

End Confidence.

End EscalationFacts.

(** * The claims *)

Import ScorerFacts RankFacts SimpleFacts EscalationFacts.

Section Claims.
Context {E : Engine}.

(** C1: for a pick with players and a non-empty event list, the policy
    accepts the lexical top candidate with its confidence when that
    confidence is at least 0.7, or at least 0.5 with no escalation
    resolver; otherwise it asks the resolver when there is one, returns its
    selection with confidence 0.9, else the lexical result when its
    confidence is at least 0.3, else no event with confidence 0 and the
    candidates kept. *)
Theorem resolution_policy_thresholds (pick : Pick.t) (events : list Event.t)
    (apiKey : option jstring) (resp : LLMResponse)
    (Hp : Pick.players pick <> []) (He : events <> []) :
  exists r, findMatchingEventSimple pick events = Some r
    /\ findMatchingEventWithDebug pick events apiKey resp
       = policy_spec r (truthy apiKey) (findMatchingEventLLM events resp)
                     (eventSummaries events).
Proof.
  destruct (simple_is_some pick events Hp) as [r Er]. exists r.
  split; [exact Er|]. pose proof NumFacts.lits_order.
  unfold findMatchingEventWithDebug, policy_spec.
  destruct events as [|e0 es]; [contradiction|]. rewrite Er.
  unfold escalate, fallback, of_simple, null_result.
  destruct (Z.leb_spec (num_lit 5 1) (sr_confidence r));
    destruct (Z.leb_spec (num_lit 7 1) (sr_confidence r));
    destruct (Z.leb_spec (num_lit 3 1) (sr_confidence r));
    destruct (truthy apiKey); simpl; try lia; try reflexivity;
    destruct (findMatchingEventLLM _ resp); reflexivity.
Qed.

(** C2 (amended): the score of an event is the sum of the sport bonus, the
    league bonus and, per player, the bonus of the first rule firing
    against the normalized participant pool, added one after the other in
    double precision; the confidence is min(bestScore, 1.0) for the
    greatest such score. *)
Theorem lexical_score_and_confidence (pick : Pick.t) (events : list Event.t)
    (Hp : Pick.players pick <> []) :
  (forall e, eventScore pick e = ScoreSpec.double_score pick e)
  /\ exists r, findMatchingEventSimple pick events = Some r
       /\ sr_confidence r = Z.min (ScoreSpec.best_score pick events) (num_lit 10 1).
Proof.
  split; [apply eventScore_spec|].
  destruct (simple_is_some pick events Hp) as [r Er]. exists r.
  split; [exact Er|]. apply (simple_confidence_best pick events r Er).
Qed.

(** C5: an empty event list gives no event, confidence 0 and no
    candidates at once, and the resolver is not asked. *)
Theorem empty_events_no_match (pick : Pick.t) (apiKey : option jstring)
    (resp : LLMResponse) :
  findMatchingEventWithDebug pick [] apiKey resp = (mkMatchResult None 0 [], None).
Proof. reflexivity. Qed.

(** C3 (amended): for a pick without players the lexical scorer gives
    nothing; with no events or no API key the result is no event,
    confidence 0 and no candidates, with no resolver call; otherwise the
    resolver is asked with the first 50 events, and its selection is
    returned with confidence 0.9, or no event with confidence 0 when it
    selects none. *)
Theorem empty_players_resolution (pick : Pick.t) (events : list Event.t)
    (apiKey : option jstring) (resp : LLMResponse)
    (Hp : Pick.players pick = []) :
  findMatchingEventWithDebug pick events apiKey resp =
  match events with
  | [] => (mkMatchResult None 0 [], None)
  | _ :: _ =>
      if truthy apiKey then
        (match findMatchingEventLLM events resp with
         | Some m => mkMatchResult (Some m) (num_lit 9 1) []
         | None => mkMatchResult None 0 []
         end, Some (eventSummaries events))
      else (mkMatchResult None 0 [], None)
  end.
Proof.
  unfold findMatchingEventWithDebug.
  destruct events as [|e0 es]; [reflexivity|].
  rewrite simple_no_players by exact Hp.
  unfold escalate, fallback, null_result.
  destruct (truthy apiKey); [|reflexivity].
  destruct (findMatchingEventLLM _ resp); reflexivity.
Qed.

(** C7 (amended): among events of equal top score, computed in double
    precision, the earliest is the best match, and the candidates are
    sorted by descending score, those of one score in input order. *)
Theorem ties_prefer_earlier (pick : Pick.t) (events : list Event.t)
    (Hp : Pick.players pick <> []) :
  exists r, findMatchingEventSimple pick events = Some r
    /\ (forall e, sr_event r = Some e ->
          exists pre post, events = pre ++ e :: post
            /\ Forall (fun x => ScoreSpec.double_score pick x
                                < ScoreSpec.double_score pick e) pre
            /\ Forall (fun x => ScoreSpec.double_score pick x
                                <= ScoreSpec.double_score pick e) post)
    /\ Sorted desc (sr_allCandidates r)
    /\ (forall v, filter (has_score v) (sr_allCandidates r)
                  = filter (has_score v) (pos_cands pick events)).
Proof.
  destruct (simple_cases pick events Hp)
    as [[E' _]|(e & pre & post & E' & Ee & Hpos & Fpre & Fpost)];
    eexists; (split; [exact E'|]); simpl;
    (split; [|split; [apply sort_desc_sorted | intro v; apply filter_sort_desc]]).
  - intros e F. discriminate.
  - intros e' F. injection F as <-. exists pre, post.
    split; [exact Ee|].
    split; (eapply Forall_impl; [|eassumption]); intros x Hx;
      rewrite <- !eventScore_spec; exact Hx.
Qed.

(** C9 (amended): a returned event has a positive confidence; either the
    resolver was asked and selected it (confidence 0.9), or it is the
    lexical best match, and the head of the candidates carries it with its
    score. *)
Theorem matched_event_source (pick : Pick.t) (events : list Event.t)
    (apiKey : option jstring) (resp : LLMResponse) (res : MatchResult)
    (sent : option (list Event.t)) (e : Event.t)
    (Hrun : findMatchingEventWithDebug pick events apiKey resp = (res, sent))
    (He : event res = Some e) :
  0 < confidence res
  /\ ((sent = Some (eventSummaries events)
       /\ findMatchingEventLLM events resp = Some e /\ confidence res = num_lit 9 1)
      \/ ((exists r, findMatchingEventSimple pick events = Some r /\ sr_event r = Some e)
          /\ exists rest, candidates res = mkCandidate e (eventScore pick e) :: rest
               /\ confidence res = Z.min (eventScore pick e) (num_lit 10 1))).
Proof.
  pose proof NumFacts.lits_order.
  destruct (policy_outcomes pick events apiKey resp)
    as [(_ & O)|[(r & Er & C5 & O)|(_ & O)]]; rewrite Hrun in O.
  - injection O as -> ->. discriminate.
  - injection O as -> ->. unfold of_simple in *. cbn [event confidence candidates] in *.
    rewrite Er. split; [lia|]. right.
    split; [exists r; split; [reflexivity | exact He]|].
    exact (simple_head pick events r e Er He).
  - unfold escalate in O. destruct (truthy apiKey).
    + destruct (findMatchingEventLLM events resp) as [m|] eqn:L;
        injection O as -> ->.
      * simpl in He. injection He as ->. split; [simpl; lia|].
        left. repeat split; reflexivity.
      * destruct (fallback_event pick events e He) as (C3 & Hr & H'). split; [lia|].
        right. split; [exact Hr | exact H'].
    + injection O as -> ->.
      destruct (fallback_event pick events e He) as (C3 & Hr & H'). split; [lia|].
      right. split; [exact Hr | exact H'].
Qed.

(** C10: the returned event is null exactly when the confidence is 0, and
    a returned event has confidence at least 0.3. *)
Theorem null_iff_zero_confidence (pick : Pick.t) (events : list Event.t)
    (apiKey : option jstring) (resp : LLMResponse) :
  (event (fst (findMatchingEventWithDebug pick events apiKey resp)) = None
   <-> confidence (fst (findMatchingEventWithDebug pick events apiKey resp)) = 0)
  /\ (event (fst (findMatchingEventWithDebug pick events apiKey resp)) <> None
      -> num_lit 3 1 <= confidence (fst (findMatchingEventWithDebug pick events apiKey resp))).
Proof.
  pose proof NumFacts.lits_order.
  destruct (policy_outcomes pick events apiKey resp)
    as [(_ & ->)|[(r & Er & C5 & ->)|(_ & ->)]]; simpl.
  - split; [tauto | intro H'; contradiction].
  - destruct (simple_event_conf pick events r Er) as [I _].
    split; [tauto | intros _; lia].
  - unfold escalate. destruct (truthy apiKey).
    + destruct (findMatchingEventLLM events resp); simpl.
      * split; [split; [discriminate | intro H'; lia] | intros _; lia].
      * apply fallback_null_iff.
    + apply fallback_null_iff.
Qed.

Context {L : EngineLaws E}.

(** C6 (amended): a selection of the resolver is returned with confidence
    0.9; the confidence the reply reports only matters through whether
    writing it to the log throws. A rejected request, a reply without a
    text block, an unparsable reply, a parsed [null] and an exception in
    reading the parsed reply select nothing. A [matchIndex] that is a
    number selects the event at that index when it is an integer index of
    the list, and a [matchIndex] string in the canonical form of an index,
    such as "0", selects the event at that index too. When the resolver
    was asked and selected nothing, the result is the lexical one if its
    confidence is at least 0.3, else no event with confidence 0. *)
Theorem escalation_fixed_confidence_and_failures (pick : Pick.t)
    (events : list Event.t) (apiKey : option jstring) (resp : LLMResponse) :
  (forall ms c c',
     (template (Some c) = None <-> template (Some c') = None) ->
     findMatchingEventWithDebug pick events apiKey
       (RParsed (JObject (ms ++ [(of_ascii "confidence", c)])))
     = findMatchingEventWithDebug pick events apiKey
         (RParsed (JObject (ms ++ [(of_ascii "confidence", c')]))))
  /\ (findMatchingEventLLM events RThrows = None
      /\ findMatchingEventLLM events RNoContent = None
      /\ findMatchingEventLLM events RNonText = None
      /\ findMatchingEventLLM events RUnparsable = None
      /\ findMatchingEventLLM events (RParsed JNull) = None
      /\ forall v, llm_try events v = None -> findMatchingEventLLM events (RParsed v) = None)
  /\ (forall x, findMatchingEventLLM events
                  (RParsed (JObject [(of_ascii "matchIndex", JNumber x)]))
                = match number_index x with
                  | Some k => nth_error events (Z.to_nat k)
                  | None => None
                  end)
  /\ (forall s k, array_index s = Some k ->
        findMatchingEventLLM events (RParsed (JObject [(of_ascii "matchIndex", JString s)]))
        = nth_error events (Z.to_nat k))
  /\ let '(res, sent) := findMatchingEventWithDebug pick events apiKey resp in
     (forall m, sent <> None -> findMatchingEventLLM events resp = Some m ->
        event res = Some m /\ confidence res = num_lit 9 1)
     /\ (sent <> None -> findMatchingEventLLM events resp = None ->
         (exists r, findMatchingEventSimple pick events = Some r
            /\ num_lit 3 1 <= sr_confidence r /\ event res = sr_event r
            /\ confidence res = sr_confidence r)
         \/ (event res = None /\ confidence res = 0
             /\ forall r, findMatchingEventSimple pick events = Some r ->
                sr_confidence r < num_lit 3 1)).
Proof.
  split.
  { intros ms c c' H. apply debug_reply_ext, llm_confidence_irrelevant, H. }
  split.
  { repeat split. intros v H. simpl. rewrite H. reflexivity. }
  split; [apply llm_number_index|].
  split; [apply llm_string_index|].
  destruct (policy_outcomes pick events apiKey resp)
    as [(_ & ->)|[(r & _ & _ & ->)|(_ & ->)]].
  - split; intros; congruence.
  - split; intros; congruence.
  - unfold escalate. destruct (truthy apiKey); [|split; intros; congruence].
    destruct (findMatchingEventLLM events resp) as [m|] eqn:Lm.
    + split; [|intros _ F; discriminate].
      intros m' _ E'. injection E' as <-. split; reflexivity.
    + split; [intros m _ F; discriminate|]. intros _ _.
      unfold fallback. destruct (findMatchingEventSimple pick events) as [r|] eqn:Er.
      * destruct (Z.leb_spec (num_lit 3 1) (sr_confidence r)).
        -- left. exists r. repeat split; auto.
        -- right. repeat split. intros r' E'. injection E' as <-. exact H.
      * right. repeat split. intros r' E'. discriminate.
Qed.


End Claims.

(** * Further properties: the matcher's entry point and the URL builder *)

(** ** Facts about [slugify] *)
Module SlugFacts.

Import NormalizeFacts.

Lemma replace_runs_chars (P : Z -> Prop) (cls : Z -> bool) (rep : Z) (b : bool)
    (s : jstring) :
  Forall (fun c => cls c = false -> P c) s -> P rep ->
  Forall P (replace_runs cls rep b s).
Proof.
  intros H Hr. revert b. induction H as [|c t Hc _ IH]; intro b; simpl; [constructor|].
  destruct (cls c) eqn:C.
  - destruct b; [apply IH | constructor; [exact Hr | apply IH]].
  - constructor; [apply Hc; reflexivity | apply IH].
Qed.

Lemma replace_runs_run_free (cls : Z -> bool) (rep : Z) (b : bool) (s : jstring) :
  cls rep = true ->
  run_free cls (replace_runs cls rep b s)
  /\ (b = true -> hd_not cls (replace_runs cls rep b s)).
Proof.
  intro Hr. revert b. induction s as [|c t IH]; intro b; simpl; [split; constructor|].
  destruct (cls c) eqn:C.
  - destruct b.
    + apply IH.
    + split; [|discriminate].
      destruct (IH true) as [P1 P2]. specialize (P2 eq_refl).
      destruct (replace_runs cls rep true t) as [|d u]; [exact I|].
      simpl in P2. split; [rewrite P2; intros [_ F]; discriminate | exact P1].
  - split; [|intros _; exact C].
    destruct (IH false) as [P1 _].
    destruct (replace_runs cls rep false t) as [|d u]; [exact I|].
    split; [rewrite C; intros [F _]; discriminate | exact P1].
Qed.

Lemma replace_runs_none (cls : Z -> bool) (rep : Z) (b : bool) (s : jstring) :
  Forall (fun c => cls c = false) s -> replace_runs cls rep b s = s.
Proof.
  intro H. revert b. induction H as [|c t Hc _ IH]; intro b; simpl; [reflexivity|].
  rewrite Hc, IH. reflexivity.
Qed.

Lemma replace_runs_id (cls : Z -> bool) (rep : Z) (b : bool) (s : jstring) :
  Forall (fun c => cls c = true -> c = rep) s -> run_free cls s ->
  (b = true -> hd_not cls s) -> replace_runs cls rep b s = s.
Proof.
  intro H. revert b. induction H as [|c t Hc Ht IH]; intros b P B; simpl; [reflexivity|].
  assert (Pt : run_free cls t) by (destruct t; [exact I | apply P]).
  destruct (cls c) eqn:C.
  - destruct b; [specialize (B eq_refl); simpl in B; congruence|].
    rewrite (Hc eq_refl). f_equal. apply IH; [exact Pt|]. intros _.
    destruct t as [|d u]; [exact I|]. simpl.
    destruct P as [P _]. destruct (cls d); [|reflexivity]. tauto.
  - f_equal. apply IH; [exact Pt | discriminate].
Qed.

Lemma run_free_app_l (cls : Z -> bool) (l1 l2 : jstring) :
  run_free cls (l1 ++ l2) -> run_free cls l1.
Proof.
  induction l1 as [|a t IH]; simpl; [constructor|].
  destruct t as [|b u]; [constructor|]. simpl in *. intros [H1 H2].
  split; [exact H1 | apply IH; exact H2].
Qed.

Lemma run_free_app_r (cls : Z -> bool) (l1 l2 : jstring) :
  run_free cls (l1 ++ l2) -> run_free cls l2.
Proof.
  induction l1 as [|a t IH]; simpl; [tauto|].
  intro H. apply IH. destruct (t ++ l2); [exact I | apply H].
Qed.

Lemma run_free_last2 (cls : Z -> bool) (v : jstring) (x y : Z) :
  run_free cls (v ++ [x; y]) -> ~ (cls x = true /\ cls y = true).
Proof. intro H. apply run_free_app_r in H. apply H. Qed.

(** [strip_hyphens] returns an infix of its argument. *)
Lemma strip_hyphens_infix (s : jstring) :
  exists pre post, s = pre ++ strip_hyphens s ++ post.
Proof.
  unfold strip_hyphens.
  set (s1 := match s with c :: t => if c =? 45 then t else s | [] => [] end).
  assert (E1 : exists pre, s = pre ++ s1).
  { unfold s1. destruct s as [|c t]; [exists []; reflexivity|].
    destruct (c =? 45); [exists [c]; reflexivity | exists []; reflexivity]. }
  destruct E1 as [pre Hpre].
  destruct (rev s1) as [|c t] eqn:R.
  - exists pre, []. rewrite app_nil_r. exact Hpre.
  - assert (Hs1 : s1 = rev t ++ [c])
      by (rewrite <- (rev_involutive s1), R; reflexivity).
    destruct (c =? 45).
    + exists pre, [c]. rewrite Hpre, Hs1. reflexivity.
    + exists pre, []. rewrite app_nil_r. exact Hpre.
Qed.

Lemma strip_hyphens_ends (s : jstring) :
  run_free (Z.eqb 45) s ->
  hd_not (Z.eqb 45) (strip_hyphens s) /\ hd_not (Z.eqb 45) (rev (strip_hyphens s)).
Proof.
  intro P. unfold strip_hyphens.
  set (s1 := match s with c :: t => if c =? 45 then t else s | [] => [] end).
  assert (P1 : run_free (Z.eqb 45) s1 /\ hd_not (Z.eqb 45) s1).
  { unfold s1. destruct s as [|c t]; [split; exact I|].
    destruct (Z.eqb_spec c 45) as [->|N].
    - split; [destruct t; [exact I | apply P]|].
      destruct t as [|d u]; [exact I|]. cbn [hd_not].
      destruct P as [P _]. destruct (45 =? d); [|reflexivity]. tauto.
    - split; [exact P|]. cbn [hd_not]. apply Z.eqb_neq. congruence. }
  destruct P1 as [P1 H1].
  destruct (rev s1) as [|c t] eqn:R.
  - split; [exact H1|]. rewrite R. exact I.
  - assert (Hs1 : s1 = rev t ++ [c])
      by (rewrite <- (rev_involutive s1), R; reflexivity).
    destruct (Z.eqb_spec c 45) as [->|N].
    + rewrite Hs1 in P1, H1. split.
      * destruct (rev t) as [|x w]; [exact I | exact H1].
      * rewrite rev_involutive.
        destruct t as [|x w]; [exact I|]. cbn [hd_not].
        simpl in P1. rewrite <- app_assoc in P1.
        apply run_free_last2 in P1. rewrite (Z.eqb_refl 45) in P1.
        destruct (45 =? x); [tauto | reflexivity].
    + split; [exact H1|]. rewrite R. cbn [hd_not]. apply Z.eqb_neq. congruence.
Qed.

Lemma slug_char_bounds (c : Z) : slug_char c -> 45 <= c <= 122.
Proof. intros [H|H]; [unfold_classes; lia | lia]. Qed.

Lemma slug_char_fixed (c : Z) :
  slug_char c -> Latin1.latin1 c /\ Latin1.lower_unit c = c
                 /\ Latin1.nfd_unit c = [c] /\ c < 768 /\ is_ws c = false.
Proof.
  intro H. pose proof (slug_char_bounds c H).
  assert (K : c = 45 \/ kept c) by (destruct H; [right; left; assumption | left; assumption]).
  split; [unfold Latin1.latin1; lia|].
  split; [|split; [|split; [lia|]]].
  - destruct K as [->|K]; [reflexivity | apply lower_kept, K].
  - destruct K as [->|K]; [reflexivity | apply nfd_kept, K].
  - destruct H as [H | ->]; [apply alnum_not_ws, H | reflexivity].
Qed.

Section Slugs.
Context {E : Engine}.

(** The shape of every slug. *)
Lemma slugify_shape (str : option jstring) :
  let y := slugify str in
  Forall slug_char y /\ run_free (Z.eqb 45) y
  /\ hd_not (Z.eqb 45) y /\ hd_not (Z.eqb 45) (rev y).
Proof.
  unfold slugify. destruct (truthy str); [|repeat split; constructor].
  set (x := replace_runs (Z.eqb 45) 45 false _).
  assert (Kx : Forall slug_char x).
  { unfold x. apply replace_runs_chars; [|right; reflexivity].
    eapply Forall_impl; [|apply replace_runs_chars with (P := slug_char)].
    - intros c Hc _. exact Hc.
    - unfold remove_special_slug.
      eapply Forall_impl; [|apply Forall_filter_prop].
      intros c Hc W. cbv beta in Hc. rewrite W, orb_false_r in Hc.
      apply orb_true_iff in Hc as [Hc|Hc]; [left; exact Hc|].
      right. apply Z.eqb_eq. exact Hc.
    - right; reflexivity. }
  assert (Px : run_free (Z.eqb 45) x) by (apply replace_runs_run_free; reflexivity).
  destruct (strip_hyphens_infix x) as (pre & post & Hx).
  destruct (strip_hyphens_ends x Px) as [H1 H2].
  rewrite Hx in Kx, Px. apply Forall_app in Kx as [_ Kx]. apply Forall_app in Kx as [Kx _].
  apply run_free_app_r, run_free_app_l in Px.
  repeat split; assumption.
Qed.

(** A slug is left as it is by [slugify]. *)
Lemma slugify_fix {L : EngineLaws E} (y : jstring) :
  Forall slug_char y -> run_free (Z.eqb 45) y ->
  hd_not (Z.eqb 45) y -> hd_not (Z.eqb 45) (rev y) ->
  slugify (Some y) = y.
Proof.
  intros K P H R. unfold slugify.
  destruct y as [|c0 y0] eqn:Ey; [reflexivity|]. cbn [truthy opt_str].
  rewrite <- Ey in *.
  assert (F : forall c, In c y -> Latin1.latin1 c /\ Latin1.lower_unit c = c
                                   /\ Latin1.nfd_unit c = [c] /\ c < 768 /\ is_ws c = false)
    by (intros c Hc; apply slug_char_fixed; rewrite Forall_forall in K; apply K, Hc).
  assert (La : Forall Latin1.latin1 y)
    by (apply Forall_forall; intros c Hc; apply F, Hc).
  assert (Lw : toLowerCase y = y).
  { rewrite (lower_latin1 y La). transitivity (map id y); [|apply map_id].
    apply map_ext_in. intros c Hc. apply F, Hc. }
  assert (N : normalize_NFD y = y).
  { rewrite (nfd_latin1 y La). clear -F. induction y as [|c t IH]; [reflexivity|].
    simpl. rewrite (proj1 (proj2 (proj2 (F c (or_introl eq_refl))))). simpl. f_equal.
    apply IH. intros d Hd. apply F. right. exact Hd. }
  assert (M : remove_marks y = y).
  { unfold remove_marks. apply filter_all. apply Forall_forall. intros c Hc.
    destruct (F c Hc) as (_ & _ & _ & Lt & _).
    destruct (768 <=? c) eqn:E'; [apply Z.leb_le in E'; lia | reflexivity]. }
  assert (S : remove_special_slug y = y).
  { unfold remove_special_slug. apply filter_all. eapply Forall_impl; [|exact K].
    intros c [Hc|Hc]; [rewrite Hc; reflexivity | subst; reflexivity]. }
  rewrite Lw, N, M, S.
  rewrite (replace_runs_none is_ws 45 false y)
    by (apply Forall_forall; intros c Hc; apply F, Hc).
  rewrite replace_runs_id; [| |exact P|discriminate].
  2: { apply Forall_forall. intros c _ E'. apply Z.eqb_eq in E'. lia. }
  unfold strip_hyphens.
  rewrite Ey in H |- *. cbn [hd_not] in H. rewrite Z.eqb_sym in H. rewrite H.
  rewrite <- Ey. destruct (rev y) as [|d u] eqn:Er; [reflexivity|].
  cbn [hd_not] in R. rewrite Z.eqb_sym in R. rewrite R. reflexivity.
Qed.

End Slugs.

End SlugFacts.

(** ** Facts about timestamps and URL paths *)
Module UrlFacts.

Import StringFacts ScorerFacts SlugFacts.

(** [String(year)] has four digits for the years 1000 to 9999. *)
Lemma years_checked : forallb four_digits_ok (range 1000 9000) = true.
Proof. vm_compute. reflexivity. Qed.

(** [String(n).padStart(2, '0')] has two digits for 0 to 99. *)
Lemma two_digits_checked : forallb two_digits_ok (range 0 100) = true.
Proof. vm_compute. reflexivity. Qed.

Lemma four_digits_spec (y : Z) :
  1000 <= y <= 9999 ->
  List.length (String_of_Z y) = 4%nat
  /\ Forall (fun c => is_digit c = true) (String_of_Z y)
  /\ decimal_value (String_of_Z y) = y.
Proof.
  intro Hy. pose proof (range_check four_digits_ok 1000 9000 y years_checked ltac:(lia)) as H.
  unfold four_digits_ok in H. rewrite !andb_true_iff, Nat.eqb_eq, Z.eqb_eq in H.
  destruct H as [[L D] V]. rewrite forallb_forall in D.
  split; [exact L|]. split; [apply Forall_forall; exact D | exact V].
Qed.

Lemma two_digits_spec (n : Z) :
  0 <= n <= 99 ->
  List.length (padStart2 (String_of_Z n)) = 2%nat
  /\ Forall (fun c => is_digit c = true) (padStart2 (String_of_Z n))
  /\ decimal_value (padStart2 (String_of_Z n)) = n.
Proof.
  intro Hn. pose proof (range_check two_digits_ok 0 100 n two_digits_checked ltac:(lia)) as H.
  unfold two_digits_ok in H. rewrite !andb_true_iff, Nat.eqb_eq, Z.eqb_eq in H.
  destruct H as [[L D] V]. rewrite forallb_forall in D.
  split; [exact L|]. split; [apply Forall_forall; exact D | exact V].
Qed.

(** A date of a four-digit year is written as twelve digits, field by
    field. *)
Lemma timestamp_fields (d : LocalDate) :
  1000 <= getFullYear d <= 9999 -> 0 <= getMonth d <= 11 ->
  1 <= getDate d <= 31 -> 0 <= getHours d <= 23 -> 0 <= getMinutes d <= 59 ->
  exists y mo da h mi,
    formatTimestamp d = y ++ mo ++ da ++ h ++ mi
    /\ List.length y = 4%nat /\ List.length mo = 2%nat /\ List.length da = 2%nat
    /\ List.length h = 2%nat /\ List.length mi = 2%nat
    /\ Forall (fun c => is_digit c = true) (formatTimestamp d)
    /\ decimal_value y = getFullYear d /\ decimal_value mo = getMonth d + 1
    /\ decimal_value da = getDate d /\ decimal_value h = getHours d
    /\ decimal_value mi = getMinutes d.
Proof.
  intros Hy Hm Hd Hh Hmi.
  destruct (four_digits_spec _ Hy) as (Ly & Dy & Vy).
  destruct (two_digits_spec (getMonth d + 1) ltac:(lia)) as (Lm & Dm & Vm).
  destruct (two_digits_spec (getDate d) ltac:(lia)) as (Ld & Dd & Vd).
  destruct (two_digits_spec (getHours d) ltac:(lia)) as (Lh & Dh & Vh).
  destruct (two_digits_spec (getMinutes d) ltac:(lia)) as (Li & Di & Vi).
  exists (String_of_Z (getFullYear d)), (padStart2 (String_of_Z (getMonth d + 1))),
    (padStart2 (String_of_Z (getDate d))), (padStart2 (String_of_Z (getHours d))),
    (padStart2 (String_of_Z (getMinutes d))).
  split; [reflexivity|].
  refine (conj Ly (conj Lm (conj Ld (conj Lh (conj Li
            (conj _ (conj Vy (conj Vm (conj Vd (conj Vh Vi)))))))))).
  unfold formatTimestamp.
  apply Forall_app; split; [exact Dy|]. apply Forall_app; split; [exact Dm|].
  apply Forall_app; split; [exact Dd|]. apply Forall_app; split; [exact Dh | exact Di].
Qed.

Lemma timestamp_length (d : LocalDate) :
  1000 <= getFullYear d <= 9999 -> 0 <= getMonth d <= 11 ->
  1 <= getDate d <= 31 -> 0 <= getHours d <= 23 -> 0 <= getMinutes d <= 59 ->
  List.length (formatTimestamp d) = 12%nat
  /\ Forall (fun c => is_digit c = true) (formatTimestamp d).
Proof.
  intros Hy Hm Hd Hh Hmi.
  destruct (timestamp_fields d Hy Hm Hd Hh Hmi)
    as (y & mo & da & h & mi & E & Ly & Lm & Ld & Lh & Li & D & _).
  split; [|exact D]. rewrite E, !length_app. lia.
Qed.

Lemma udigits_chars (fuel : nat) (n : Z) (acc : jstring) :
  Forall (fun c => is_digit c = true) acc ->
  Forall (fun c => is_digit c = true) (udigits fuel n acc).
Proof.
  revert n acc. induction fuel as [|f IH]; intros n acc H; simpl; [exact H|].
  assert (D : is_digit (48 + n mod 10) = true).
  { pose proof (Z.mod_pos_bound n 10 ltac:(lia)).
    unfold is_digit. apply andb_true_iff. split; apply Z.leb_le; lia. }
  destruct (n <? 10); [constructor; assumption | apply IH; constructor; assumption].
Qed.

Lemma String_of_Z_no_slash (n : Z) : Forall (fun c => c <> 47) (String_of_Z n).
Proof.
  assert (G : forall m, Forall (fun c => c <> 47) (udigits 32 m [])).
  { intro m. eapply Forall_impl; [|apply udigits_chars; constructor].
    intros c Hc. unfold is_digit in Hc. apply andb_true_iff in Hc.
    rewrite !Z.leb_le in Hc. lia. }
  unfold String_of_Z. destruct (n <? 0); [constructor; [lia|]|]; apply G.
Qed.

Lemma padStart2_no_slash (s : jstring) :
  Forall (fun c => c <> 47) s -> Forall (fun c => c <> 47) (padStart2 s).
Proof.
  intro H. unfold padStart2. apply Forall_app. split; [|exact H].
  apply Forall_forall. intros c Hc. apply repeat_spec in Hc. lia.
Qed.

Lemma join_chars (P : Z -> Prop) (sep : jstring) (l : list jstring) :
  Forall P sep -> Forall (Forall P) l -> Forall P (join sep l).
Proof.
  intros Hs H. induction H as [|x t Hx Ht IH]; [constructor|].
  destruct t as [|y u]; [exact Hx|].
  change (Forall P (x ++ sep ++ join sep (y :: u))).
  repeat (apply Forall_app; split); assumption.
Qed.

Section Paths.
Context {E : Engine}.

Lemma slug_no_slash (str : option jstring) : Forall (fun c => c <> 47) (slugify str).
Proof.
  destruct (slugify_shape str) as (K & _).
  eapply Forall_impl; [|exact K]. intros c Hc.
  pose proof (slug_char_bounds c Hc). destruct Hc as [Hc|Hc]; [|lia].
  unfold is_alnum in Hc. apply orb_true_iff in Hc.
  rewrite !andb_true_iff, !Z.leb_le in Hc. lia.
Qed.

Lemma event_slug_no_slash (p1 p2 : option jstring) (st : option LocalDate) :
  Forall (fun c => c <> 47) (createEventSlug p1 p2 st).
Proof.
  unfold createEventSlug.
  assert (P : Forall (fun c => c <> 47)
                (join [45] (map (fun p => slugify (Some p)) (filter_truthy [p1; p2])))).
  { apply join_chars; [constructor; [lia | constructor]|].
    apply Forall_forall. intros x Hx. apply in_map_iff in Hx as (p & <- & _).
    apply slug_no_slash. }
  destruct (truthy (Some _)); [|exact P].
  apply Forall_app. split; [exact P|]. constructor; [lia|].
  destruct st as [d|]; [|constructor].
  unfold formatTimestamp.
  apply Forall_app; split; [apply String_of_Z_no_slash|].
  do 3 (apply Forall_app; split; [apply padStart2_no_slash, String_of_Z_no_slash|]).
  apply padStart2_no_slash, String_of_Z_no_slash.
Qed.

Lemma split_on_nosep (sep : Z) (a : jstring) :
  Forall (fun c => c <> sep) a -> split_on sep a = [a].
Proof.
  induction 1 as [|c t Hc _ IH]; [reflexivity|]. simpl. rewrite IH.
  destruct (Z.eqb_spec c sep); [contradiction | reflexivity].
Qed.

Lemma split_on_app (sep : Z) (a b : jstring) :
  Forall (fun c => c <> sep) a -> split_on sep (a ++ sep :: b) = a :: split_on sep b.
Proof.
  induction 1 as [|c t Hc _ IH]; simpl; [rewrite Z.eqb_refl; reflexivity|].
  rewrite IH. destruct (Z.eqb_spec c sep); [contradiction | reflexivity].
Qed.

Lemma constructPath_segments (ev : UrlEvent) :
  constructPath ev
  = [] ++ 47 :: (of_ascii "sports" ++ 47 :: (sport_slug ev ++ 47 ::
      (league_slug ev ++ 47 :: event_slug ev))).
Proof. reflexivity. Qed.

(** The path parts [parseBovadaUrl] finds in a path built by
    [constructUrl]. *)
Lemma constructPath_parts (ev : UrlEvent) :
  filter (fun p => truthy (Some p)) (split_on 47 (constructPath ev))
  = of_ascii "sports"
    :: filter (fun p => truthy (Some p)) [sport_slug ev; league_slug ev; event_slug ev].
Proof.
  rewrite constructPath_segments.
  rewrite (split_on_app 47 []) by constructor.
  rewrite (split_on_app 47 (of_ascii "sports"))
    by (apply Forall_forall; intros c Hc; simpl in Hc; lia).
  rewrite (split_on_app 47 (sport_slug ev)) by apply slug_no_slash.
  rewrite (split_on_app 47 (league_slug ev)) by apply slug_no_slash.
  rewrite (split_on_nosep 47 (event_slug ev)) by apply event_slug_no_slash.
  reflexivity.
Qed.

Lemma skipn_length_app (a b : jstring) : skipn (List.length a) (a ++ b) = b.
Proof. induction a as [|x a IH]; [reflexivity | exact IH]. Qed.

Lemma firstn_length_app (a b : jstring) : firstn (List.length a) (a ++ b) = a.
Proof. induction a as [|x a IH]; [reflexivity | simpl; now rewrite IH]. Qed.

(** A slug ending in a dash and twelve digits: the digits are read back as
    the timestamp and the rest as the participants. *)
Lemma timestamp_match_app (p ts : jstring) :
  List.length ts = 12%nat -> Forall (fun c => is_digit c = true) ts ->
  timestamp_match (p ++ [45] ++ ts) = Some ts
  /\ firstn (List.length (p ++ [45] ++ ts) - List.length ts - 1) (p ++ [45] ++ ts) = p.
Proof.
  intros L D.
  set (q := p ++ [45]).
  replace (p ++ [45] ++ ts) with (q ++ ts) by (unfold q; rewrite <- app_assoc; reflexivity).
  assert (N : (List.length (q ++ ts) - 12 = List.length q)%nat)
    by (rewrite length_app; lia).
  unfold timestamp_match. rewrite N, skipn_length_app.
  split.
  - replace (12 <=? List.length (q ++ ts))%nat with true
      by (symmetry; apply Nat.leb_le; rewrite length_app; lia).
    rewrite (proj2 (forallb_forall is_digit ts))
      by (rewrite Forall_forall in D; exact D).
    reflexivity.
  - replace (List.length (q ++ ts) - List.length ts - 1)%nat with (List.length p)
      by (unfold q; rewrite !length_app; simpl; lia).
    unfold q. rewrite <- app_assoc. apply firstn_length_app.
Qed.

Lemma last_parts (x s l e : jstring) :
  e <> [] -> last (x :: filter (fun p => truthy (Some p)) [s; l; e]) [] = e.
Proof.
  intro He. destruct e as [|c e]; [contradiction|].
  destruct s as [|a s], l as [|b l]; reflexivity.
Qed.

(** What [parseBovadaUrl] reads from a path built by [constructUrl]. *)
Lemma parse_constructed (ev : UrlEvent) :
  parseBovadaPath (constructPath ev)
  = let pathParts := of_ascii "sports"
        :: filter (fun p => truthy (Some p)) [sport_slug ev; league_slug ev; event_slug ev] in
    let eventSlug := last pathParts [] in
    let timestamp := timestamp_match eventSlug in
    let participantsPart :=
      match timestamp with
      | Some ts => firstn (List.length eventSlug - List.length ts - 1) eventSlug
      | None => eventSlug
      end in
    Some (mkParsedUrl (nth_error pathParts 1) (nth_error pathParts 2)
            eventSlug timestamp (split_on 45 participantsPart)).
Proof. unfold parseBovadaPath. rewrite constructPath_parts. reflexivity. Qed.

End Paths.

End UrlFacts.
(** ** Further facts about the scorer *)
Module MatcherFacts.

Import StringFacts ScorerFacts RankFacts SimpleFacts NormalizeFacts.


Lemma filter_length_le {A} (f : A -> bool) (l : list A) :
  (List.length (filter f l) <= List.length l)%nat.
Proof. induction l as [|x t IH]; simpl; [lia|]. destruct (f x); simpl; lia. Qed.

Section Lower.
Context {E : Engine} {L : EngineLaws E}.





End Lower.

Section Matcher.
Context {E : Engine}.




Lemma rule_bonus_values (np p : jstring) (b : Z) :
  ScoreSpec.rule_bonus np p = Some b -> In b [4; 5; 6; 7].
Proof.
  unfold ScoreSpec.rule_bonus.
  destruct (str_eqb np p); [intro H; injection H as <-; simpl; tauto|].
  destruct (_ && includes p np); [intro H; injection H as <-; simpl; tauto|].
  destruct (_ && includes np p); [intro H; injection H as <-; simpl; tauto|].
  destruct (existsb _ _); [intro H; injection H as <-; simpl; tauto | discriminate].
Qed.

Lemma player_bonus_values (np : jstring) (pool : list jstring) :
  In (ScoreSpec.player_bonus np pool) [0; 4; 5; 6; 7].
Proof.
  induction pool as [|p rest IH]; simpl; [tauto|].
  destruct (ScoreSpec.rule_bonus np p) as [b|] eqn:R; [|exact IH].
  right. apply (rule_bonus_values np p b R).
Qed.

Lemma bonuses_snoc (pls : list jstring) (ps pl : option jstring) (p : jstring)
    (e : Event.t) :
  ScoreSpec.bonuses (Pick.mk (pls ++ [p]) ps pl) e
  = ScoreSpec.bonuses (Pick.mk pls ps pl) e
    ++ [ScoreSpec.player_bonus (normalizePlayerName p) (ScoreSpec.pool e)].
Proof. unfold ScoreSpec.bonuses. cbn [Pick.players]. rewrite map_app. reflexivity. Qed.

Lemma add_bonuses_one (score b : Z) :
  ScoreSpec.add_bonuses score [b] = if b =? 0 then score else add score (num_lit b 1).
Proof. reflexivity. Qed.

Lemma best_score_perm (pick : Pick.t) (l l' : list Event.t) :
  Permutation l l' -> ScoreSpec.best_score pick l = ScoreSpec.best_score pick l'.
Proof. induction 1; simpl; lia. Qed.

Lemma pos_cands_perm (pick : Pick.t) (l l' : list Event.t) :
  Permutation l l' -> Permutation (pos_cands pick l) (pos_cands pick l').
Proof.
  intro P. unfold pos_cands. apply Permutation_map.
  induction P as [| x l l' P IH | x y l | l l' l'' P1 IH1 P2 IH2]; simpl.
  - constructor.
  - destruct (0 <? eventScore pick x); [constructor|]; exact IH.
  - destruct (0 <? eventScore pick x), (0 <? eventScore pick y);
      try constructor; reflexivity.
  - etransitivity; eassumption.
Qed.

Lemma simple_nil (pick : Pick.t) (r : SimpleResult) :
  findMatchingEventSimple pick [] = Some r -> sr_event r = None.
Proof.
  unfold findMatchingEventSimple. destruct (Pick.players pick); [discriminate|].
  simpl. intro H. injection H as <-. reflexivity.
Qed.

(** A non-empty timestamp is written after a hyphen. *)
Lemma formatTimestamp_nonempty (d : LocalDate) : formatTimestamp d <> [].
Proof.
  unfold formatTimestamp. pose proof (String_of_Z_nonempty (getFullYear d)) as H.
  destruct (String_of_Z (getFullYear d)); [contradiction | discriminate].
Qed.

End Matcher.

End MatcherFacts.

Import SlugFacts UrlFacts MatcherFacts.

Section Extras.
Context {E : Engine}.

(** X1: without an API key, [findMatchingEvent] never calls the language
    model, and it returns an event exactly when the lexical scorer found it
    with a confidence of at least 0.3. *)
Theorem findMatchingEvent_without_key (pick : Pick.t) (events : list Event.t)
    (apiKey : option jstring) (resp : LLMResponse) (e : Event.t)
    (Hk : truthy apiKey = false) :
  snd (findMatchingEvent pick events apiKey resp) = None
  /\ (fst (findMatchingEvent pick events apiKey resp) = Some e
      <-> exists r, findMatchingEventSimple pick events = Some r
                    /\ sr_event r = Some e /\ num_lit 3 1 <= sr_confidence r).
Proof.
  pose proof NumFacts.lits_order.
  unfold findMatchingEvent.
  destruct (policy_outcomes pick events apiKey resp)
    as [(-> & O)|[(r & Er & C5 & O)|(_ & O)]]; rewrite O; cbn [fst snd].
  - split; [reflexivity|]. split; [discriminate|].
    intros (r & Er & Ee & _). rewrite (simple_nil pick r Er) in Ee. discriminate.
  - split; [reflexivity|]. cbn [of_simple event]. split.
    + intro Ee. exists r. split; [exact Er|]. split; [exact Ee | lia].
    + intros (r' & Er' & Ee & _). rewrite Er in Er'. injection Er' as <-. exact Ee.
  - unfold escalate. rewrite Hk. cbn [fst snd]. split; [reflexivity|].
    unfold fallback. destruct (findMatchingEventSimple pick events) as [r|] eqn:Er.
    + destruct (Z.leb_spec (num_lit 3 1) (sr_confidence r)) as [Le|Gt];
        cbn [of_simple null_result event].
      * split; [intro Ee; exists r; auto|].
        intros (r' & Er' & Ee & _). injection Er' as <-. exact Ee.
      * split; [discriminate|].
        intros (r' & Er' & _ & Le). injection Er' as <-. lia.
    + cbn [null_result event]. split; [discriminate|].
      intros (r' & Er' & _). discriminate.
Qed.

(** X2: an event's lexical score is at least 0, and appending one player
    to the pick either leaves it as it is or adds one bonus of 0.4, 0.5,
    0.6 or 0.7 to it in double precision. *)
Theorem event_score_bounds_and_increment (pick : Pick.t) (e : Event.t) (p : jstring) :
  0 <= eventScore pick e
  /\ let pick' := Pick.mk (Pick.players pick ++ [p]) (Pick.sport pick) (Pick.league pick) in
     eventScore pick' e = eventScore pick e
     \/ exists b, In b [4; 5; 6; 7] /\ eventScore pick' e = add (eventScore pick e) (num_lit b 1).
Proof.
  split; [apply eventScore_nonneg|]. cbv zeta.
  rewrite !eventScore_spec. unfold ScoreSpec.double_score.
  destruct pick as [pls ps pl]. cbn [Pick.players Pick.sport Pick.league].
  rewrite bonuses_snoc, add_bonuses_app, add_bonuses_one.
  generalize (player_bonus_values (normalizePlayerName p) (ScoreSpec.pool e)).
  generalize (ScoreSpec.player_bonus (normalizePlayerName p) (ScoreSpec.pool e)).
  intros b Hb. simpl in Hb.
  destruct Hb as [<-|[<-|[<-|[<-|[<-|[]]]]]]; cbn [Z.eqb];
    [left; reflexivity | right; eexists; split; [idtac | reflexivity]; simpl; tauto ..].
Qed.

(** X4: the candidates of a lexical result are, up to their order, the
    events of positive score each paired with its score: one candidate per
    such event, each of a listed event, never more than the events. *)
Theorem simple_candidates_exact (pick : Pick.t) (events : list Event.t) (r : SimpleResult)
    (Hr : findMatchingEventSimple pick events = Some r) :
  Permutation (sr_allCandidates r) (pos_cands pick events)
  /\ (List.length (sr_allCandidates r) <= List.length events)%nat
  /\ Forall (fun c => In (cand_event c) events
                      /\ score c = eventScore pick (cand_event c) /\ 0 < score c)
            (sr_allCandidates r).
Proof.
  destruct (simple_confidence_best pick events r Hr) as [_ C]. rewrite C.
  pose proof (sort_desc_perm (pos_cands pick events)) as P.
  split; [apply Permutation_sym, P|]. split.
  - rewrite <- (Permutation_length P). unfold pos_cands. rewrite length_map.
    apply filter_length_le.
  - apply Forall_forall. intros c Hc.
    apply (Permutation_in _ (Permutation_sym P)) in Hc.
    unfold pos_cands in Hc. apply in_map_iff in Hc as (x & <- & Hx).
    apply filter_In in Hx as [Hx Hp]. apply Z.ltb_lt in Hp. cbn. auto.
Qed.

(** X5: reordering the events changes neither the lexical confidence nor
    the candidates, up to their order. *)
Theorem simple_order_independent (pick : Pick.t) (events events' : list Event.t)
    (HP : Permutation events events') :
  match findMatchingEventSimple pick events, findMatchingEventSimple pick events' with
  | Some r, Some r' =>
      sr_confidence r = sr_confidence r'
      /\ Permutation (sr_allCandidates r) (sr_allCandidates r')
  | None, None => True
  | _, _ => False
  end.
Proof.
  destruct (Pick.players pick) as [|x xs] eqn:Hp.
  { rewrite !simple_no_players by exact Hp. exact I. }
  assert (Hp' : Pick.players pick <> []) by (rewrite Hp; discriminate).
  destruct (simple_is_some pick events Hp') as [r Er].
  destruct (simple_is_some pick events' Hp') as [r' Er'].
  rewrite Er, Er'.
  destruct (simple_confidence_best pick events r Er) as [C1 A1].
  destruct (simple_confidence_best pick events' r' Er') as [C2 A2].
  rewrite C1, C2, A1, A2, (best_score_perm pick _ _ HP).
  split; [reflexivity|].
  rewrite <- !sort_desc_perm. apply pos_cands_perm, HP.
Qed.

(** X6: a lexical confidence lies between 0 and 1.0, is 0 exactly when no
    event is returned, and a returned event is one of the events, with a
    positive score, and the confidence min(score, 1.0). *)
Theorem simple_result_range (pick : Pick.t) (events : list Event.t) (r : SimpleResult)
    (Hr : findMatchingEventSimple pick events = Some r) :
  0 <= sr_confidence r <= num_lit 10 1
  /\ (sr_event r = None <-> sr_confidence r = 0)
  /\ (forall e, sr_event r = Some e ->
        In e events /\ 0 < eventScore pick e
        /\ sr_confidence r = Z.min (eventScore pick e) (num_lit 10 1)).
Proof.
  pose proof NumFacts.lits_order.
  destruct (Pick.players pick) as [|x xs] eqn:Hp.
  { rewrite simple_no_players in Hr by exact Hp. discriminate. }
  assert (Hp' : Pick.players pick <> []) by (rewrite Hp; discriminate).
  destruct (simple_cases pick events Hp')
    as [[E' _]|(e & pre & post & E' & Ee & Hpos & _ & _)];
    rewrite Hr in E'; injection E' as ->; cbn [sr_event sr_confidence].
  - split; [lia|]. split; [tauto|]. discriminate.
  - split; [lia|]. split; [split; [discriminate | lia]|].
    intros e' He'. injection He' as <-. split; [|split; [exact Hpos | reflexivity]].
    rewrite Ee. apply in_or_app. right. left. reflexivity.
Qed.

(** X7: a slug is made of [a-z], [0-9] and hyphens only, has no two
    hyphens in a row, and neither starts nor ends with a hyphen. *)
Theorem slugify_output_shape (str : option jstring) :
  Forall (fun c => is_alnum c = true \/ c = 45) (slugify str)
  /\ run_free (Z.eqb 45) (slugify str)
  /\ hd_not (Z.eqb 45) (slugify str)
  /\ hd_not (Z.eqb 45) (rev (slugify str)).
Proof. exact (slugify_shape str). Qed.

(** X9: every URL [buildBovadaUrl] returns starts with "http"; unless the
    event's own link does, the URL starts with the Bovada base URL. *)
Theorem buildBovadaUrl_http_prefix (ev : UrlEvent) :
  starts_with (buildBovadaUrl ev) (of_ascii "http") = true
  /\ (starts_with (opt_str (link ev)) (of_ascii "http") = false ->
      exists rest, buildBovadaUrl ev = BOVADA_BASE_URL ++ rest).
Proof.
  unfold buildBovadaUrl.
  destruct (truthy (link ev)).
  - destruct (starts_with (opt_str (link ev)) (of_ascii "http")) eqn:S.
    + split; [exact S | discriminate].
    + split; [reflexivity|]. intros _. eexists. reflexivity.
  - destruct (raw ev), (path ev); unfold constructUrlFromPath, constructUrl;
      (split; [reflexivity | intros _; eexists; reflexivity]).
Qed.

(** X10: for a four-digit year and fields in their ranges, the timestamp is
    twelve digits: the year, then month (1-12), day, hours and minutes on
    two digits each, each reading back as its field. *)
Theorem formatTimestamp_twelve_digits (d : LocalDate)
    (Hy : 1000 <= getFullYear d <= 9999) (Hm : 0 <= getMonth d <= 11)
    (Hd : 1 <= getDate d <= 31) (Hh : 0 <= getHours d <= 23)
    (Hmi : 0 <= getMinutes d <= 59) :
  exists y mo da h mi,
    formatTimestamp d = y ++ mo ++ da ++ h ++ mi
    /\ List.length y = 4%nat /\ List.length mo = 2%nat /\ List.length da = 2%nat
    /\ List.length h = 2%nat /\ List.length mi = 2%nat
    /\ Forall (fun c => is_digit c = true) (formatTimestamp d)
    /\ decimal_value y = getFullYear d /\ decimal_value mo = getMonth d + 1
    /\ decimal_value da = getDate d /\ decimal_value h = getHours d
    /\ decimal_value mi = getMinutes d.
Proof. exact (timestamp_fields d Hy Hm Hd Hh Hmi). Qed.


(** X11: an event without its own link and without Bovada's path data is
    linked to [BOVADA_BASE_URL] followed by the path of [constructUrl]; when
    its sport, league and event slugs are not empty, [parseBovadaUrl] reads
    them back from that path. *)
Theorem constructed_url_round_trip (ev : UrlEvent)
    (Hl : truthy (link ev) = false) (Hrp : raw ev = None \/ path ev = None)
    (Hs : sport_slug ev <> []) (Hlg : league_slug ev <> []) (He : event_slug ev <> []) :
  buildBovadaUrl ev = BOVADA_BASE_URL ++ constructPath ev
  /\ exists p, parseBovadaPath (constructPath ev) = Some p
     /\ pu_sport p = Some (sport_slug ev) /\ pu_league p = Some (league_slug ev)
     /\ pu_eventSlug p = event_slug ev.
Proof.
  split.
  - unfold buildBovadaUrl. rewrite Hl.
    destruct Hrp as [R|R]; rewrite R; [reflexivity|]. destruct (raw ev); reflexivity.
  - rewrite parse_constructed. eexists. split; [reflexivity|]. cbv zeta.
    cbn [pu_sport pu_league pu_eventSlug].
    rewrite last_parts by exact He.
    destruct (sport_slug ev) as [|a s]; [contradiction|].
    destruct (league_slug ev) as [|b l]; [contradiction|].
    destruct (event_slug ev) as [|c t]; [contradiction|].
    split; [reflexivity | split; reflexivity].
Qed.


(** X12: for an event with a start time of a four-digit year, the path of
    [constructUrl] ends in a hyphen and the twelve-digit timestamp;
    [parseBovadaUrl] reads back that timestamp, and the participants from
    the part before it, split at hyphens. *)
Theorem constructed_url_timestamp_round_trip (ev : UrlEvent) (d : LocalDate)
    (Hd : startTime ev = Some d)
    (Hy : 1000 <= getFullYear d <= 9999) (Hm : 0 <= getMonth d <= 11)
    (Hdd : 1 <= getDate d <= 31) (Hh : 0 <= getHours d <= 23)
    (Hmi : 0 <= getMinutes d <= 59) :
  event_slug ev = participants_slug ev ++ [45] ++ formatTimestamp d
  /\ exists p, parseBovadaPath (constructPath ev) = Some p
     /\ pu_timestamp p = Some (formatTimestamp d)
     /\ pu_participants p = split_on 45 (participants_slug ev).
Proof.
  destruct (timestamp_length d Hy Hm Hdd Hh Hmi) as [L D].
  assert (Es : event_slug ev = participants_slug ev ++ [45] ++ formatTimestamp d).
  { unfold event_slug, createEventSlug, participants_slug. rewrite Hd.
    destruct (formatTimestamp d) as [|c t]; [discriminate L | reflexivity]. }
  split; [exact Es|].
  destruct (timestamp_match_app (participants_slug ev) (formatTimestamp d) L D) as [T P].
  rewrite parse_constructed. eexists. split; [reflexivity|]. cbv zeta.
  cbn [pu_timestamp pu_participants].
  rewrite last_parts by (rewrite Es; destruct (participants_slug ev); discriminate).
  rewrite Es, T. cbv beta iota. rewrite P. split; reflexivity.
Qed.


(** X13: when the sport slugifies to the empty string, the path of
    [constructUrl] has an empty segment that [parseBovadaUrl] drops: it
    reports the league slug as the sport and the event slug as the
    league. *)
Theorem empty_sport_slug_shifts_segments (ev : UrlEvent)
    (Hs : sport_slug ev = []) (Hlg : league_slug ev <> []) (He : event_slug ev <> []) :
  exists p, parseBovadaPath (constructPath ev) = Some p
    /\ pu_sport p = Some (league_slug ev) /\ pu_league p = Some (event_slug ev).
Proof.
  rewrite parse_constructed. eexists. split; [reflexivity|]. cbv zeta.
  cbn [pu_sport pu_league]. rewrite Hs.
  destruct (league_slug ev) as [|b l]; [contradiction|].
  destruct (event_slug ev) as [|c t]; [contradiction|].
  split; reflexivity.
Qed.

(** X14: when the first participant is a non-empty name whose slug is
    empty, the event slug starts with a hyphen as soon as anything follows
    the participants: a second participant or a timestamp. *)
Theorem event_slug_leading_hyphen (p1 : jstring) (p2 : option jstring)
    (st : option LocalDate) (H1 : p1 <> []) (Hs : slugify (Some p1) = [])
    (Hrest : truthy p2 = true \/ st <> None) :
  exists rest, createEventSlug (Some p1) p2 st = 45 :: rest.
Proof.
  unfold createEventSlug.
  replace (filter_truthy [Some p1; p2]) with (p1 :: filter_truthy [p2])
    by (destruct p1; [contradiction | reflexivity]).
  destruct (truthy p2) eqn:T2.
  - replace (filter_truthy [p2]) with [opt_str p2]
      by (unfold filter_truthy; simpl; rewrite T2; reflexivity).
    cbn [map join]. rewrite Hs.
    destruct (truthy (Some _)); eexists; reflexivity.
  - replace (filter_truthy [p2]) with (@nil jstring)
      by (unfold filter_truthy; simpl; rewrite T2; reflexivity).
    cbn [map join]. rewrite Hs.
    destruct st as [d|]; [|destruct Hrest as [F|F]; [discriminate F | contradiction]].
    pose proof (formatTimestamp_nonempty d) as N.
    destruct (formatTimestamp d) as [|c t]; [contradiction|].
    cbn [truthy]. eexists. reflexivity.
Qed.

Context {L : EngineLaws E}.


(** X8: slugify is idempotent. *)
Theorem slugify_idempotent (str : option jstring) :
  slugify (Some (slugify str)) = slugify str.
Proof.
  destruct (slugify_shape str) as (K & P & H & R).
  apply slugify_fix; assumption.
Qed.

End Extras.

(** * Runs on the engine of U+0000..U+00FF

    The witnesses below evaluate the definitions on the sample inputs with
    [latin1_engine], which satisfies the laws of [EngineLaws]. *)

#[local] Existing Instance latin1_engine.
#[local] Existing Instance EngineFacts.latin1_engine_lawful.

(** C4: with 51 events the language model is shown the first 50, yet a
    reply selecting index 50 passes the check [matchIndex < events.length]
    and the policy returns the 51st event with confidence 0.9. *)
Theorem index_outside_slice_accepted :
  List.length (eventSummaries events_51) = 50%nat
  /\ findMatchingEventLLM events_51 (index_reply 50) = Some ev_lakers
  /\ findMatchingEventWithDebug pick_djokovic events_51 api_key (index_reply 50)
     = (mkMatchResult (Some ev_lakers) (num_lit 9 1) [], Some (eventSummaries events_51)).
Proof. split; [|split]; vm_compute; reflexivity. Qed.

(** C2, as the claim states it, fails: the bonuses 0.2 and 0.4 of
    "Daniel Galan" against "Galan X" sum to 0.6, but the code adds them in
    double precision and gets 0.6000000000000001, above the double 0.6. *)
Lemma lexical_score_sum_counterexample :
  ScoreSpec.bonuses pick_daniel_galan ev_galan_x = [2; 0; 4]
  /\ ScoreSpec.spec_score pick_daniel_galan ev_galan_x = 6
  /\ eventScore pick_daniel_galan ev_galan_x = add (num_lit 2 1) (num_lit 4 1)
  /\ num_lit 6 1 < eventScore pick_daniel_galan ev_galan_x.
Proof.
  split; [vm_compute; reflexivity|]. split; [vm_compute; reflexivity|].
  split; [vm_compute; reflexivity|]. vm_compute. reflexivity.
Qed.

(** C3, as the claim states it, fails: a pick without players against a
    non-empty event list is escalated when an API key is present, and the
    resolver's selection is returned. *)
Lemma empty_players_escalates_counterexample :
  ~ (event (fst (findMatchingEventWithDebug pick_no_players [ev_galan] api_key
                   (index_reply 0))) = None
     /\ snd (findMatchingEventWithDebug pick_no_players [ev_galan] api_key
               (index_reply 0)) = None).
Proof. intros [H _]. vm_compute in H. discriminate. Qed.

(** C6, as the claim states it, fails: the malformed reply
    [{"matchIndex": "0"}], a string where the prompt asks for a number, is
    not treated as a failure: the string passes the comparisons and
    indexes the event list, and its event is returned with confidence
    0.9. *)
Lemma string_index_selects_counterexample :
  findMatchingEventLLM [ev_galan] string_index_reply = Some ev_galan
  /\ findMatchingEventWithDebug pick_djokovic [ev_galan] api_key string_index_reply
     = (mkMatchResult (Some ev_galan) (num_lit 9 1) [], Some (eventSummaries [ev_galan])).
Proof. split; vm_compute; reflexivity. Qed.

(** C7, as the claim states it, fails: for "Daniel Galan" the events
    "Daniel Galan Jr" (0.6) and "Galan X" (0.2 + 0.4) have the same score
    in exact arithmetic, yet the later one is returned, its double score
    being the greater. *)
Lemma tie_broken_by_rounding_counterexample :
  ScoreSpec.spec_score pick_daniel_galan ev_galan_jr = 6
  /\ ScoreSpec.spec_score pick_daniel_galan ev_galan_x = 6
  /\ option_map sr_event (findMatchingEventSimple pick_daniel_galan [ev_galan_jr; ev_galan_x])
     = Some (Some ev_galan_x).
Proof. split; [|split]; vm_compute; reflexivity. Qed.


(** C9, as the claim states it, fails: an event selected by the resolver
    need not be among the lexical candidates. *)
Lemma resolver_event_missing_from_candidates :
  event (fst (findMatchingEventWithDebug pick_djokovic [ev_galan] api_key
                (index_reply 0))) = Some ev_galan
  /\ ~ (exists c, In c (candidates (fst (findMatchingEventWithDebug pick_djokovic
                     [ev_galan] api_key (index_reply 0))))
             /\ cand_event c = ev_galan).
Proof.
  split; [vm_compute; reflexivity|].
  intros (c & Hc & _). vm_compute in Hc. exact Hc.
Qed.

Lemma resolution_policy_thresholds_witness :
  let pick := pick_galan in
  let events := [ev_galan] in
  let apiKey := api_key in
  let resp := RThrows in
  (Pick.players pick <> [])
  /\ (events <> [])
  /\ (exists r, findMatchingEventSimple pick events = Some r
    /\ findMatchingEventWithDebug pick events apiKey resp
       = policy_spec r (truthy apiKey) (findMatchingEventLLM events resp)
                     (eventSummaries events)).
Proof.
  cbv zeta.
  split; [discriminate|].
  split; [discriminate|].
  pose proof (resolution_policy_thresholds (E:=latin1_engine)) as HW.
  specialize (HW (pick_galan)).
  specialize (HW ([ev_galan])).
  specialize (HW (api_key)).
  specialize (HW (RThrows)).
  specialize (HW ltac:(discriminate)).
  specialize (HW ltac:(discriminate)).
  exact HW.
Defined.

Lemma lexical_score_and_confidence_witness :
  let pick := pick_galan in
  let events := [ev_galan; ev_lakers] in
  (Pick.players pick <> [])
  /\ ((forall e, eventScore pick e = ScoreSpec.double_score pick e)
  /\ exists r, findMatchingEventSimple pick events = Some r
       /\ sr_confidence r = Z.min (ScoreSpec.best_score pick events) (num_lit 10 1)).
Proof.
  cbv zeta.
  split; [discriminate|].
  pose proof (lexical_score_and_confidence (E:=latin1_engine)) as HW.
  specialize (HW (pick_galan)).
  specialize (HW ([ev_galan; ev_lakers])).
  specialize (HW ltac:(discriminate)).
  exact HW.
Defined.

Lemma empty_players_resolution_witness :
  let pick := pick_no_players in
  let events := [ev_galan] in
  let apiKey := api_key in
  let resp := RThrows in
  (Pick.players pick = [])
  /\ (findMatchingEventWithDebug pick events apiKey resp =
  match events with
  | [] => (mkMatchResult None 0 [], None)
  | _ :: _ =>
      if truthy apiKey then
        (match findMatchingEventLLM events resp with
         | Some m => mkMatchResult (Some m) (num_lit 9 1) []
         | None => mkMatchResult None 0 []
         end, Some (eventSummaries events))
      else (mkMatchResult None 0 [], None)
  end).
Proof.
  cbv zeta.
  split; [reflexivity|].
  pose proof (empty_players_resolution (E:=latin1_engine)) as HW.
  specialize (HW (pick_no_players)).
  specialize (HW ([ev_galan])).
  specialize (HW (api_key)).
  specialize (HW (RThrows)).
  specialize (HW ltac:(reflexivity)).
  exact HW.
Defined.

Lemma ties_prefer_earlier_witness :
  let pick := pick_galan in
  let events := [ev_galan; ev_galan] in
  (Pick.players pick <> [])
  /\ (exists r, findMatchingEventSimple pick events = Some r
    /\ (forall e, sr_event r = Some e ->
          exists pre post, events = pre ++ e :: post
            /\ Forall (fun x => ScoreSpec.double_score pick x
                                < ScoreSpec.double_score pick e) pre
            /\ Forall (fun x => ScoreSpec.double_score pick x
                                <= ScoreSpec.double_score pick e) post)
    /\ Sorted desc (sr_allCandidates r)
    /\ (forall v, filter (has_score v) (sr_allCandidates r)
                  = filter (has_score v) (pos_cands pick events))).
Proof.
  cbv zeta.
  split; [discriminate|].
  pose proof (ties_prefer_earlier (E:=latin1_engine)) as HW.
  specialize (HW (pick_galan)).
  specialize (HW ([ev_galan; ev_galan])).
  specialize (HW ltac:(discriminate)).
  exact HW.
Defined.

Lemma matched_event_source_witness :
  let pick := pick_galan in
  let events := [ev_galan] in
  let apiKey := None in
  let resp := RThrows in
  let res := fst (findMatchingEventWithDebug pick_galan [ev_galan] None RThrows) in
  let sent := snd (findMatchingEventWithDebug pick_galan [ev_galan] None RThrows) in
  let e := ev_galan in
  (findMatchingEventWithDebug pick events apiKey resp = (res, sent))
  /\ (event res = Some e)
  /\ (0 < confidence res
  /\ ((sent = Some (eventSummaries events)
       /\ findMatchingEventLLM events resp = Some e /\ confidence res = num_lit 9 1)
      \/ ((exists r, findMatchingEventSimple pick events = Some r /\ sr_event r = Some e)
          /\ exists rest, candidates res = mkCandidate e (eventScore pick e) :: rest
               /\ confidence res = Z.min (eventScore pick e) (num_lit 10 1)))).
Proof.
  cbv zeta.
  split; [apply surjective_pairing|].
  split; [vm_compute; reflexivity|].
  pose proof (matched_event_source (E:=latin1_engine)) as HW.
  specialize (HW (pick_galan)).
  specialize (HW ([ev_galan])).
  specialize (HW (None)).
  specialize (HW (RThrows)).
  specialize (HW (fst (findMatchingEventWithDebug pick_galan [ev_galan] None RThrows))).
  specialize (HW (snd (findMatchingEventWithDebug pick_galan [ev_galan] None RThrows))).
  specialize (HW (ev_galan)).
  specialize (HW ltac:(apply surjective_pairing)).
  specialize (HW ltac:(vm_compute; reflexivity)).
  exact HW.
Defined.

Lemma escalation_fixed_confidence_and_failures_witness :
  let pick := pick_galan in
  let events := [ev_galan] in
  let apiKey := api_key in
  let resp := RThrows in
  ((forall ms c c',
     (template (Some c) = None <-> template (Some c') = None) ->
     findMatchingEventWithDebug pick events apiKey
       (RParsed (JObject (ms ++ [(of_ascii "confidence", c)])))
     = findMatchingEventWithDebug pick events apiKey
         (RParsed (JObject (ms ++ [(of_ascii "confidence", c')]))))
  /\ (findMatchingEventLLM events RThrows = None
      /\ findMatchingEventLLM events RNoContent = None
      /\ findMatchingEventLLM events RNonText = None
      /\ findMatchingEventLLM events RUnparsable = None
      /\ findMatchingEventLLM events (RParsed JNull) = None
      /\ forall v, llm_try events v = None -> findMatchingEventLLM events (RParsed v) = None)
  /\ (forall x, findMatchingEventLLM events
                  (RParsed (JObject [(of_ascii "matchIndex", JNumber x)]))
                = match number_index x with
                  | Some k => nth_error events (Z.to_nat k)
                  | None => None
                  end)
  /\ (forall s k, array_index s = Some k ->
        findMatchingEventLLM events (RParsed (JObject [(of_ascii "matchIndex", JString s)]))
        = nth_error events (Z.to_nat k))
  /\ let '(res, sent) := findMatchingEventWithDebug pick events apiKey resp in
     (forall m, sent <> None -> findMatchingEventLLM events resp = Some m ->
        event res = Some m /\ confidence res = num_lit 9 1)
     /\ (sent <> None -> findMatchingEventLLM events resp = None ->
         (exists r, findMatchingEventSimple pick events = Some r
            /\ num_lit 3 1 <= sr_confidence r /\ event res = sr_event r
            /\ confidence res = sr_confidence r)
         \/ (event res = None /\ confidence res = 0
             /\ forall r, findMatchingEventSimple pick events = Some r ->
                sr_confidence r < num_lit 3 1))).
Proof.
  cbv zeta.
  pose proof (escalation_fixed_confidence_and_failures (E:=latin1_engine)) as HW.
  specialize (HW (pick_galan)).
  specialize (HW ([ev_galan])).
  specialize (HW (api_key)).
  specialize (HW (RThrows)).
  exact HW.
Defined.


Lemma findMatchingEvent_without_key_witness :
  let pick := pick_galan in
  let events := [ev_galan; ev_lakers] in
  let apiKey := None in
  let resp := RThrows in
  let e := ev_galan in
  (truthy apiKey = false)
  /\ (snd (findMatchingEvent pick events apiKey resp) = None
  /\ (fst (findMatchingEvent pick events apiKey resp) = Some e
      <-> exists r, findMatchingEventSimple pick events = Some r
                    /\ sr_event r = Some e /\ num_lit 3 1 <= sr_confidence r)).
Proof.
  cbv zeta.
  split; [reflexivity|].
  pose proof (findMatchingEvent_without_key (E:=latin1_engine)) as HW.
  specialize (HW (pick_galan)).
  specialize (HW ([ev_galan; ev_lakers])).
  specialize (HW (None)).
  specialize (HW (RThrows)).
  specialize (HW (ev_galan)).
  specialize (HW ltac:(reflexivity)).
  exact HW.
Defined.


Lemma simple_candidates_exact_witness :
  let pick := pick_galan in
  let events := [ev_galan; ev_lakers] in
  let r := match findMatchingEventSimple pick_galan [ev_galan; ev_lakers] with Some r => r | None => mkSimpleResult None 0 [] end in
  (findMatchingEventSimple pick events = Some r)
  /\ (Permutation (sr_allCandidates r) (pos_cands pick events)
  /\ (List.length (sr_allCandidates r) <= List.length events)%nat
  /\ Forall (fun c => In (cand_event c) events
                      /\ score c = eventScore pick (cand_event c) /\ 0 < score c)
            (sr_allCandidates r)).
Proof.
  cbv zeta.
  split; [vm_compute; reflexivity|].
  pose proof (simple_candidates_exact (E:=latin1_engine)) as HW.
  specialize (HW (pick_galan)).
  specialize (HW ([ev_galan; ev_lakers])).
  specialize (HW (match findMatchingEventSimple pick_galan [ev_galan; ev_lakers] with Some r => r | None => mkSimpleResult None 0 [] end)).
  specialize (HW ltac:(vm_compute; reflexivity)).
  exact HW.
Defined.

Lemma simple_order_independent_witness :
  let pick := pick_galan in
  let events := [ev_galan; ev_lakers] in
  let events' := [ev_lakers; ev_galan] in
  (Permutation events events')
  /\ (match findMatchingEventSimple pick events, findMatchingEventSimple pick events' with
  | Some r, Some r' =>
      sr_confidence r = sr_confidence r'
      /\ Permutation (sr_allCandidates r) (sr_allCandidates r')
  | None, None => True
  | _, _ => False
  end).
Proof.
  cbv zeta.
  split; [apply perm_swap|].
  pose proof (simple_order_independent (E:=latin1_engine)) as HW.
  specialize (HW (pick_galan)).
  specialize (HW ([ev_galan; ev_lakers])).
  specialize (HW ([ev_lakers; ev_galan])).
  specialize (HW ltac:(apply perm_swap)).
  exact HW.
Defined.

Lemma simple_result_range_witness :
  let pick := pick_galan in
  let events := [ev_galan; ev_lakers] in
  let r := match findMatchingEventSimple pick_galan [ev_galan; ev_lakers] with Some r => r | None => mkSimpleResult None 0 [] end in
  (findMatchingEventSimple pick events = Some r)
  /\ (0 <= sr_confidence r <= num_lit 10 1
  /\ (sr_event r = None <-> sr_confidence r = 0)
  /\ (forall e, sr_event r = Some e ->
        In e events /\ 0 < eventScore pick e
        /\ sr_confidence r = Z.min (eventScore pick e) (num_lit 10 1))).
Proof.
  cbv zeta.
  split; [vm_compute; reflexivity|].
  pose proof (simple_result_range (E:=latin1_engine)) as HW.
  specialize (HW (pick_galan)).
  specialize (HW ([ev_galan; ev_lakers])).
  specialize (HW (match findMatchingEventSimple pick_galan [ev_galan; ev_lakers] with Some r => r | None => mkSimpleResult None 0 [] end)).
  specialize (HW ltac:(vm_compute; reflexivity)).
  exact HW.
Defined.

Lemma slugify_idempotent_witness :
  let str := Some (of_ascii "Daniel Elahi Galan") in
  (slugify (Some (slugify str)) = slugify str).
Proof.
  cbv zeta.
  pose proof (slugify_idempotent (E:=latin1_engine)) as HW.
  specialize (HW (Some (of_ascii "Daniel Elahi Galan"))).
  exact HW.
Defined.

Lemma formatTimestamp_twelve_digits_witness :
  let d := date_galan in
  (1000 <= getFullYear d <= 9999)
  /\ (0 <= getMonth d <= 11)
  /\ (1 <= getDate d <= 31)
  /\ (0 <= getHours d <= 23)
  /\ (0 <= getMinutes d <= 59)
  /\ (exists y mo da h mi,
    formatTimestamp d = y ++ mo ++ da ++ h ++ mi
    /\ List.length y = 4%nat /\ List.length mo = 2%nat /\ List.length da = 2%nat
    /\ List.length h = 2%nat /\ List.length mi = 2%nat
    /\ Forall (fun c => is_digit c = true) (formatTimestamp d)
    /\ decimal_value y = getFullYear d /\ decimal_value mo = getMonth d + 1
    /\ decimal_value da = getDate d /\ decimal_value h = getHours d
    /\ decimal_value mi = getMinutes d).
Proof.
  cbv zeta.
  split; [simpl; lia|].
  split; [simpl; lia|].
  split; [simpl; lia|].
  split; [simpl; lia|].
  split; [simpl; lia|].
  pose proof (formatTimestamp_twelve_digits) as HW.
  specialize (HW (date_galan)).
  specialize (HW ltac:(simpl; lia)).
  specialize (HW ltac:(simpl; lia)).
  specialize (HW ltac:(simpl; lia)).
  specialize (HW ltac:(simpl; lia)).
  specialize (HW ltac:(simpl; lia)).
  exact HW.
Defined.

Lemma constructed_url_round_trip_witness :
  let ev := url_galan in
  (truthy (link ev) = false)
  /\ (raw ev = None \/ path ev = None)
  /\ (sport_slug ev <> [])
  /\ (league_slug ev <> [])
  /\ (event_slug ev <> [])
  /\ (buildBovadaUrl ev = BOVADA_BASE_URL ++ constructPath ev
  /\ exists p, parseBovadaPath (constructPath ev) = Some p
     /\ pu_sport p = Some (sport_slug ev) /\ pu_league p = Some (league_slug ev)
     /\ pu_eventSlug p = event_slug ev).
Proof.
  cbv zeta.
  split; [reflexivity|].
  split; [left; reflexivity|].
  split; [vm_compute; discriminate|].
  split; [vm_compute; discriminate|].
  split; [vm_compute; discriminate|].
  pose proof (constructed_url_round_trip (E:=latin1_engine)) as HW.
  specialize (HW (url_galan)).
  specialize (HW ltac:(reflexivity)).
  specialize (HW ltac:(left; reflexivity)).
  specialize (HW ltac:(vm_compute; discriminate)).
  specialize (HW ltac:(vm_compute; discriminate)).
  specialize (HW ltac:(vm_compute; discriminate)).
  exact HW.
Defined.

Lemma constructed_url_timestamp_round_trip_witness :
  let ev := url_galan in
  let d := date_galan in
  (startTime ev = Some d)
  /\ (1000 <= getFullYear d <= 9999)
  /\ (0 <= getMonth d <= 11)
  /\ (1 <= getDate d <= 31)
  /\ (0 <= getHours d <= 23)
  /\ (0 <= getMinutes d <= 59)
  /\ (event_slug ev = participants_slug ev ++ [45] ++ formatTimestamp d
  /\ exists p, parseBovadaPath (constructPath ev) = Some p
     /\ pu_timestamp p = Some (formatTimestamp d)
     /\ pu_participants p = split_on 45 (participants_slug ev)).
Proof.
  cbv zeta.
  split; [reflexivity|].
  split; [simpl; lia|].
  split; [simpl; lia|].
  split; [simpl; lia|].
  split; [simpl; lia|].
  split; [simpl; lia|].
  pose proof (constructed_url_timestamp_round_trip (E:=latin1_engine)) as HW.
  specialize (HW (url_galan)).
  specialize (HW (date_galan)).
  specialize (HW ltac:(reflexivity)).
  specialize (HW ltac:(simpl; lia)).
  specialize (HW ltac:(simpl; lia)).
  specialize (HW ltac:(simpl; lia)).
  specialize (HW ltac:(simpl; lia)).
  specialize (HW ltac:(simpl; lia)).
  exact HW.
Defined.

Lemma empty_sport_slug_shifts_segments_witness :
  let ev := url_symbol_sport in
  (sport_slug ev = [])
  /\ (league_slug ev <> [])
  /\ (event_slug ev <> [])
  /\ (exists p, parseBovadaPath (constructPath ev) = Some p
    /\ pu_sport p = Some (league_slug ev) /\ pu_league p = Some (event_slug ev)).
Proof.
  cbv zeta.
  split; [vm_compute; reflexivity|].
  split; [vm_compute; discriminate|].
  split; [vm_compute; discriminate|].
  pose proof (empty_sport_slug_shifts_segments (E:=latin1_engine)) as HW.
  specialize (HW (url_symbol_sport)).
  specialize (HW ltac:(vm_compute; reflexivity)).
  specialize (HW ltac:(vm_compute; discriminate)).
  specialize (HW ltac:(vm_compute; discriminate)).
  exact HW.
Defined.

Lemma event_slug_leading_hyphen_witness :
  let p1 := of_ascii "!!!" in
  let p2 := Some (of_ascii "Lakers") in
  let st := None in
  (p1 <> [])
  /\ (slugify (Some p1) = [])
  /\ (truthy p2 = true \/ st <> None)
  /\ (exists rest, createEventSlug (Some p1) p2 st = 45 :: rest).
Proof.
  cbv zeta.
  split; [discriminate|].
  split; [vm_compute; reflexivity|].
  split; [left; reflexivity|].
  pose proof (event_slug_leading_hyphen (E:=latin1_engine)) as HW.
  specialize (HW (of_ascii "!!!")).
  specialize (HW (Some (of_ascii "Lakers"))).
  specialize (HW (None)).
  specialize (HW ltac:(discriminate)).
  specialize (HW ltac:(vm_compute; reflexivity)).
  specialize (HW ltac:(left; reflexivity)).
  exact HW.
Defined.
